(** * Serial connection manager: port monitor, device identifiers, manager

    A shallow embedding of [SerialManager_libs/portmonitor.py] and
    [SerialManager_libs/serialmanager.py].

    The Qt objects the code talks to are modelled by the part of their
    behaviour the code relies on:
    - a signal is a table of connections; [connect] adds one connection
      (connecting the same slot again adds another one), [disconnect(slot)]
      removes every connection of that slot and changes nothing when there
      is none, and [emit] calls, in connection order, every slot that was
      connected when the emission started and still is;
    - slots run synchronously inside [emit], so the slots of the manager
      run inside the [emit] of its identifier;
    - the signals of [QSerialPort], of the identifier's [QTimer] and of the
      [PortMonitor] come from the event loop, between two operations;
      [readyRead] comes from an open port only and [timeout] from a running
      timer only; [errorOccurred] reaches [_on_error] as an operation of
      its own, with the error string it comes with, while [open] and
      [waitForReadyRead] give their result only;
    - what the operating system decides (whether [open] succeeds, what a
      device answers) is read from an environment indexed by the number of
      [open] calls made so far, so every behaviour of the device is covered;
    - the signals of the manager ([connected], [disconnected],
      [data_received], [error_occurred]) and of the identifier
      ([identified], [failed]) are recorded in order of emission. *)

From Stdlib Require Import ZArith Strings.Byte.
From stdpp Require Import base gmap sets list strings.

Local Open Scope string_scope.
Local Open Scope list_scope.
Local Open Scope nat_scope.

(** ** Data *)

(** Python [bytes]. *)
Abbreviation bytes := (list byte).

(** [QSerialPortInfo]: [hasVendorIdentifier()] is [is_Some], and
    [vendorIdentifier()] the value carried; same for the product. *)
Record QSerialPortInfo := {
  portName : string;
  vendorIdentifier : option Z;
  productIdentifier : option Z
}.

(** ** portmonitor.py *)

Module PortMonitor.

Inductive Signal :=
| port_added (port : QSerialPortInfo)
| port_removed (port : QSerialPortInfo).

(** [{port.portName() for port in ports}] *)
Definition names (ports : list QSerialPortInfo) : gset string :=
  list_to_set (portName <$> ports).

(** [__init__]: the ports present at construction are known. *)
Definition init (ports : list QSerialPortInfo) : gset string := names ports.

(** [_scan]: [ports] is what [QSerialPortInfo.availablePorts()] returns;
    the result is the new [_known_ports] and the signals emitted, in
    order.  Both loops run over [ports]. *)
Definition _scan (_known_ports : gset string) (ports : list QSerialPortInfo)
  : gset string * list Signal :=
  let current_names := names ports in
  let nuevos :=
    filter (λ port, portName port ∉ _known_ports) ports in
  let eliminados :=
    filter (λ port, portName port ∈ _known_ports ∖ current_names) ports in
  (current_names, (port_added <$> nuevos) ++ (port_removed <$> eliminados)).

(** Names carried by the [port_removed] signals of a tick. *)
Definition removed_names (sigs : list Signal) : list string :=
  omap (λ s, match s with port_removed p => Some (portName p) | _ => None end) sigs.

Definition added_names (sigs : list Signal) : list string :=
  omap (λ s, match s with port_added p => Some (portName p) | _ => None end) sigs.

End PortMonitor.

(** ** serialmanager.py: data *)

Inductive SerialManagerState := DISCONNECTED | IDENTIFYING | CONNECTED.

#[global] Instance SerialManagerState_eq_dec : EqDecision SerialManagerState.
Proof. solve_decision. Defined.

#[global] Instance byte_eq_dec : EqDecision byte := Byte.byte_eq_dec.

(** Signals of [SerialManager], as application code receives them. *)
Inductive Event :=
| connected (port_name : string)
| disconnected
| data_received (data : bytes)
| error_occurred (message : string).

#[global] Instance Event_eq_dec : EqDecision Event.
Proof. solve_decision. Defined.

(** Signals of [SerialDeviceIdentifier]. *)
Inductive IdSignal := identified | failed.

(** [QSerialPort.SerialPortError]: only [NoError] is told apart. *)
Inductive SerialPortError := NoError | OtherError.

#[global] Instance SerialPortError_eq_dec : EqDecision SerialPortError.
Proof. solve_decision. Defined.

(** The slots the code connects to [QSerialPort.readyRead]. *)
Inductive ReadySlot := Manager_on_ready_read | Identifier_on_ready_read.

#[global] Instance ReadySlot_eq_dec : EqDecision ReadySlot.
Proof. solve_decision. Defined.

(** [signal.connect(slot)] and [signal.disconnect(slot)] on a connection
    table kept in connection order: [connect] adds a connection at the
    end, [disconnect] removes all the connections of the slot. *)
Definition connect_slot (slot : ReadySlot) (table : list ReadySlot) : list ReadySlot :=
  table ++ [slot].

Fixpoint disconnect_slot (slot : ReadySlot) (table : list ReadySlot) : list ReadySlot :=
  match table with
  | [] => []
  | s :: rest =>
      if decide (s = slot) then disconnect_slot slot rest
      else s :: disconnect_slot slot rest
  end.

(** The one [QSerialPort] shared by the manager and its identifier. *)
Record QSerialPort := {
  isOpen : bool;
  serial_port : QSerialPortInfo;      (* setPort *)
  errorString : string;
  rx : bytes;                         (* received, not yet read *)
  tx : list bytes;                    (* every write, in order *)
  readyRead : list ReadySlot;         (* connections of readyRead *)
  opens : nat                         (* open() calls made so far *)
}.

Inductive IdentifierClass := BlockingIdentifier | SimpleIdentifier.

(** A [SerialDeviceIdentifier] object of one of the two classes.  For a
    signal with a single slot ever connected the connection table is the
    number of connections. *)
Record SerialDeviceIdentifier := {
  class : IdentifierClass;
  _id_command : bytes;
  _expected_response : bytes;
  _timeout_ms : Z;
  timer_active : bool;                (* SimpleIdentifier._timer is running *)
  identified_conns : nat;             (* identified -> SerialManager._on_identified *)
  failed_conns : nat;                 (* failed -> SerialManager.disconnect *)
  signalled : list IdSignal           (* every emission, in order *)
}.

Record SerialManager := {
  _vid : option Z;
  _pid : option Z;
  _serial : QSerialPort;
  _state : SerialManagerState;
  _identifier : SerialDeviceIdentifier;
  _available_ports : list QSerialPortInfo;
  port_added_conns : nat;             (* port_monitor.port_added -> _on_port_added *)
  emitted : list Event                (* every emission, in order *)
}.

(** What the operating system and the device decide. *)
Record Env := {
  (* the outcome of the [n]-th [open()] on a port: [None] when it returns
     True, [Some msg] when it returns False and [errorString()] is [msg] *)
  open_result : nat → QSerialPortInfo → option string;
  (* [waitForReadyRead(timeout)] after [n] opens: [None] when the time
     runs out, [Some data] when [data] arrived in time *)
  wait_result : nat → option bytes
}.

(** ** Field updates *)

Definition with_isOpen (b : bool) (s : QSerialPort) : QSerialPort :=
  {| isOpen := b; serial_port := serial_port s; errorString := errorString s;
     rx := rx s; tx := tx s; readyRead := readyRead s; opens := opens s |}.

Definition with_serial_port (p : QSerialPortInfo) (s : QSerialPort) : QSerialPort :=
  {| isOpen := isOpen s; serial_port := p; errorString := errorString s;
     rx := rx s; tx := tx s; readyRead := readyRead s; opens := opens s |}.

Definition with_errorString (e : string) (s : QSerialPort) : QSerialPort :=
  {| isOpen := isOpen s; serial_port := serial_port s; errorString := e;
     rx := rx s; tx := tx s; readyRead := readyRead s; opens := opens s |}.

Definition with_rx (d : bytes) (s : QSerialPort) : QSerialPort :=
  {| isOpen := isOpen s; serial_port := serial_port s; errorString := errorString s;
     rx := d; tx := tx s; readyRead := readyRead s; opens := opens s |}.

Definition with_tx (t : list bytes) (s : QSerialPort) : QSerialPort :=
  {| isOpen := isOpen s; serial_port := serial_port s; errorString := errorString s;
     rx := rx s; tx := t; readyRead := readyRead s; opens := opens s |}.

Definition with_readyRead (t : list ReadySlot) (s : QSerialPort) : QSerialPort :=
  {| isOpen := isOpen s; serial_port := serial_port s; errorString := errorString s;
     rx := rx s; tx := tx s; readyRead := t; opens := opens s |}.

Definition with_opens (n : nat) (s : QSerialPort) : QSerialPort :=
  {| isOpen := isOpen s; serial_port := serial_port s; errorString := errorString s;
     rx := rx s; tx := tx s; readyRead := readyRead s; opens := n |}.

Definition with_timer_active (b : bool) (i : SerialDeviceIdentifier) : SerialDeviceIdentifier :=
  {| class := class i; _id_command := _id_command i;
     _expected_response := _expected_response i; _timeout_ms := _timeout_ms i;
     timer_active := b; identified_conns := identified_conns i;
     failed_conns := failed_conns i; signalled := signalled i |}.

Definition with_conns (n_identified n_failed : nat) (i : SerialDeviceIdentifier)
  : SerialDeviceIdentifier :=
  {| class := class i; _id_command := _id_command i;
     _expected_response := _expected_response i; _timeout_ms := _timeout_ms i;
     timer_active := timer_active i; identified_conns := n_identified;
     failed_conns := n_failed; signalled := signalled i |}.

Definition with_signalled (l : list IdSignal) (i : SerialDeviceIdentifier)
  : SerialDeviceIdentifier :=
  {| class := class i; _id_command := _id_command i;
     _expected_response := _expected_response i; _timeout_ms := _timeout_ms i;
     timer_active := timer_active i; identified_conns := identified_conns i;
     failed_conns := failed_conns i; signalled := l |}.

Definition with_filters (vid pid : option Z) (m : SerialManager) : SerialManager :=
  {| _vid := vid; _pid := pid; _serial := _serial m; _state := _state m;
     _identifier := _identifier m; _available_ports := _available_ports m;
     port_added_conns := port_added_conns m; emitted := emitted m |}.

Definition with_serial (s : QSerialPort) (m : SerialManager) : SerialManager :=
  {| _vid := _vid m; _pid := _pid m; _serial := s; _state := _state m;
     _identifier := _identifier m; _available_ports := _available_ports m;
     port_added_conns := port_added_conns m; emitted := emitted m |}.

Definition with_state (st : SerialManagerState) (m : SerialManager) : SerialManager :=
  {| _vid := _vid m; _pid := _pid m; _serial := _serial m; _state := st;
     _identifier := _identifier m; _available_ports := _available_ports m;
     port_added_conns := port_added_conns m; emitted := emitted m |}.

Definition with_identifier (i : SerialDeviceIdentifier) (m : SerialManager) : SerialManager :=
  {| _vid := _vid m; _pid := _pid m; _serial := _serial m; _state := _state m;
     _identifier := i; _available_ports := _available_ports m;
     port_added_conns := port_added_conns m; emitted := emitted m |}.

Definition with_available_ports (q : list QSerialPortInfo) (m : SerialManager) : SerialManager :=
  {| _vid := _vid m; _pid := _pid m; _serial := _serial m; _state := _state m;
     _identifier := _identifier m; _available_ports := q;
     port_added_conns := port_added_conns m; emitted := emitted m |}.

Definition with_port_added_conns (n : nat) (m : SerialManager) : SerialManager :=
  {| _vid := _vid m; _pid := _pid m; _serial := _serial m; _state := _state m;
     _identifier := _identifier m; _available_ports := _available_ports m;
     port_added_conns := n; emitted := emitted m |}.

Definition with_emitted (l : list Event) (m : SerialManager) : SerialManager :=
  {| _vid := _vid m; _pid := _pid m; _serial := _serial m; _state := _state m;
     _identifier := _identifier m; _available_ports := _available_ports m;
     port_added_conns := port_added_conns m; emitted := l |}.

(** Apply a [QSerialPort] or identifier method to the manager's object. *)
Definition on_serial (f : QSerialPort → QSerialPort) (m : SerialManager) : SerialManager :=
  with_serial (f (_serial m)) m.

Definition on_identifier (f : SerialDeviceIdentifier → SerialDeviceIdentifier)
  (m : SerialManager) : SerialManager :=
  with_identifier (f (_identifier m)) m.

(** [signal.emit(...)] of a manager signal. *)
Definition emit (e : Event) (m : SerialManager) : SerialManager :=
  with_emitted (emitted m ++ [e]) m.

(** ** QSerialPort methods *)

Definition null_port : QSerialPortInfo :=
  {| portName := ""; vendorIdentifier := None; productIdentifier := None |}.

Definition QSerialPort_new : QSerialPort :=
  {| isOpen := false; serial_port := null_port; errorString := "Unknown error";
     rx := []; tx := []; readyRead := []; opens := 0 |}.

Definition close (s : QSerialPort) : QSerialPort := with_rx [] (with_isOpen false s).

Definition write (data : bytes) (s : QSerialPort) : QSerialPort :=
  with_tx (tx s ++ [data]) s.

Definition setPort (p : QSerialPortInfo) (s : QSerialPort) : QSerialPort :=
  with_serial_port p s.

(** [open(ReadWrite)]: the flag returned and the port afterwards. *)
Definition open (env : Env) (s : QSerialPort) : bool * QSerialPort :=
  match open_result env (opens s) (serial_port s) with
  | None => (true, with_opens (S (opens s)) (with_rx [] (with_isOpen true s)))
  | Some msg => (false, with_opens (S (opens s)) (with_errorString msg s))
  end.

(** [readAll().data()] *)
Definition readAll (s : QSerialPort) : bytes * QSerialPort := (rx s, with_rx [] s).

(** Bytes arriving from the device. *)
Definition receive (data : bytes) (s : QSerialPort) : QSerialPort :=
  with_rx (rx s ++ data) s.

(** ** bytes.strip() *)

(** ASCII whitespace, as [bytes.strip()] with no argument removes it:
    space, tab, line feed, carriage return, vertical tab, form feed. *)
Definition is_space (b : byte) : bool :=
  match b with
  | x20 | x09 | x0a | x0d | x0b | x0c => true
  | _ => false
  end.

Fixpoint lstrip (l : bytes) : bytes :=
  match l with
  | [] => []
  | b :: rest => if is_space b then lstrip rest else l
  end.

Definition rstrip (l : bytes) : bytes := rev (lstrip (rev l)).

Definition strip (l : bytes) : bytes := rstrip (lstrip l).

(** ** serialmanager.py: the manager and its identifier *)

(** [_port_matches_filters], one filter: no filter, or the port has the
    identifier and it is the one asked for. *)
Definition filter_ok (wanted : option Z) (has : option Z) : bool :=
  match wanted with
  | None => true
  | Some v => bool_decide (has = Some v)
  end.

Definition _port_matches_filters (m : SerialManager) (port_info : QSerialPortInfo) : bool :=
  if negb (filter_ok (_vid m) (vendorIdentifier port_info)) then false
  else if negb (filter_ok (_pid m) (productIdentifier port_info)) then false
  else true.

(** [response == self._expected_response] after [strip()]. *)
Definition response_ok (i : SerialDeviceIdentifier) (response : bytes) : bool :=
  bool_decide (strip response = _expected_response i).

(** [_on_identified] *)
Definition _on_identified (m : SerialManager) : SerialManager :=
  let m := with_state CONNECTED m in
  let m := with_available_ports [] m in
  let m := on_identifier (with_conns 0 0) m in
  let m := on_serial (λ s, with_readyRead
                             (connect_slot Manager_on_ready_read (readyRead s)) s) m in
  emit (connected (portName (serial_port (_serial m)))) m.

(** [_on_ready_read] of the manager *)
Definition _on_ready_read (m : SerialManager) : SerialManager :=
  let '(data, s) := readAll (_serial m) in
  emit (data_received data) (with_serial s m).

(** [send] *)
Definition send (data : bytes) (m : SerialManager) : SerialManager :=
  if isOpen (_serial m) then on_serial (write data) m else m.

(** [is_connected] *)
Definition is_connected (m : SerialManager) : bool :=
  bool_decide (_state m = CONNECTED).

(** The methods that reach [_try_next_port], written over the call
    [try_next_port] they make: [disconnect] calls it, the identifier's
    signals call [disconnect], [start] emits them, and [_try_next_port]
    itself calls [start] through [_identify_device]. *)
Section Methods.
Context (env : Env).
Variable try_next_port : SerialManager → SerialManager.

(** [disconnect] *)
Definition disconnect_k (m : SerialManager) : SerialManager :=
  let m := if isOpen (_serial m) then on_serial close m else m in
  let previous_state := _state m in
  let m := with_state DISCONNECTED m in
  if bool_decide (previous_state ≠ IDENTIFYING) then
    let m := emit disconnected m in
    try_next_port m
  else m.

(** [self.identified.emit()] and [self.failed.emit()]: one call of the
    connected slot for each connection there was when the emission
    started and that is still there when its turn comes. *)
Definition emit_signal_k (sig : IdSignal) (m : SerialManager) : SerialManager :=
  let m := on_identifier (λ i, with_signalled (signalled i ++ [sig]) i) m in
  match sig with
  | identified =>
      Nat.iter (identified_conns (_identifier m))
        (λ m, if bool_decide (0 < identified_conns (_identifier m))
              then _on_identified m else m) m
  | failed =>
      Nat.iter (failed_conns (_identifier m))
        (λ m, if bool_decide (0 < failed_conns (_identifier m))
              then disconnect_k m else m) m
  end.

(** [BlockingIdentifier.start] *)
Definition BlockingIdentifier_start_k (m : SerialManager) : SerialManager :=
  let m := on_serial (write (_id_command (_identifier m))) m in
  match wait_result env (opens (_serial m)) with
  | Some data =>
      let m := on_serial (receive data) m in
      let '(response, s) := readAll (_serial m) in
      let m := with_serial s m in
      if response_ok (_identifier m) response then emit_signal_k identified m
      else emit_signal_k failed m
  | None => emit_signal_k failed m
  end.

(** [SimpleIdentifier.start] *)
Definition SimpleIdentifier_start (m : SerialManager) : SerialManager :=
  let m := on_serial (write (_id_command (_identifier m))) m in
  let m := on_identifier (with_timer_active true) m in
  let m := on_serial (λ s, with_readyRead
                             (disconnect_slot Identifier_on_ready_read (readyRead s)) s) m in
  on_serial (λ s, with_readyRead
                    (connect_slot Identifier_on_ready_read (readyRead s)) s) m.

(** [SimpleIdentifier._on_ready_read] *)
Definition SimpleIdentifier_on_ready_read_k (m : SerialManager) : SerialManager :=
  let m := on_identifier (with_timer_active false) m in
  let m := on_serial (λ s, with_readyRead
                             (disconnect_slot Identifier_on_ready_read (readyRead s)) s) m in
  let '(response, s) := readAll (_serial m) in
  let m := with_serial s m in
  if response_ok (_identifier m) response then emit_signal_k identified m
  else emit_signal_k failed m.

(** [SimpleIdentifier._on_timeout] *)
Definition SimpleIdentifier_on_timeout_k (m : SerialManager) : SerialManager :=
  let m := on_serial (λ s, with_readyRead
                             (disconnect_slot Identifier_on_ready_read (readyRead s)) s) m in
  emit_signal_k failed m.

(** [self._identifier.start(self._serial)] *)
Definition start_k (m : SerialManager) : SerialManager :=
  match class (_identifier m) with
  | BlockingIdentifier => BlockingIdentifier_start_k m
  | SimpleIdentifier => SimpleIdentifier_start m
  end.

(** [_identify_device] *)
Definition _identify_device_k (m : SerialManager) : SerialManager :=
  let m := with_state IDENTIFYING m in
  let m := on_serial (λ s, with_readyRead
                             (disconnect_slot Manager_on_ready_read (readyRead s)) s) m in
  let m := on_identifier (λ i, with_conns (S (identified_conns i))
                                         (S (failed_conns i)) i) m in
  start_k m.

(** The [while self._available_ports] loop of [_try_next_port]; [q] is
    [self._available_ports] on entry of the iteration. *)
Fixpoint while_available_ports_k (q : list QSerialPortInfo) (m : SerialManager)
  : SerialManager :=
  match q with
  | [] => m
  | port_info :: rest =>
      let m := with_available_ports rest m in
      if negb (_port_matches_filters m port_info) then
        while_available_ports_k rest m
      else
        let m := on_serial (setPort port_info) m in
        let '(opened, s) := open env (_serial m) in
        let m := with_serial s m in
        if negb opened then
          let m := emit (error_occurred (errorString (_serial m))) m in
          while_available_ports_k rest m
        else _identify_device_k m
  end.

(** [_try_next_port] *)
Definition _try_next_port_k (m : SerialManager) : SerialManager :=
  if isOpen (_serial m) || bool_decide (_state m ≠ DISCONNECTED) then m
  else while_available_ports_k (_available_ports m) m.

End Methods.

(** [_try_next_port] calls itself only through [start], after it has
    taken a port off the queue: [fuel] bounds the depth of these calls. *)
Fixpoint _try_next_port_fuel (env : Env) (fuel : nat) (m : SerialManager) : SerialManager :=
  match fuel with
  | 0 => m
  | S fuel' => _try_next_port_k env (_try_next_port_fuel env fuel') m
  end.

Definition _try_next_port (env : Env) (m : SerialManager) : SerialManager :=
  _try_next_port_fuel env (S (length (_available_ports m))) m.

Section Manager.
Context (env : Env).

Definition disconnect : SerialManager → SerialManager :=
  disconnect_k (_try_next_port env).

Definition emit_signal : IdSignal → SerialManager → SerialManager :=
  emit_signal_k (_try_next_port env).

Definition SimpleIdentifier_on_ready_read : SerialManager → SerialManager :=
  SimpleIdentifier_on_ready_read_k (_try_next_port env).

Definition SimpleIdentifier_on_timeout : SerialManager → SerialManager :=
  SimpleIdentifier_on_timeout_k (_try_next_port env).

Definition BlockingIdentifier_start : SerialManager → SerialManager :=
  BlockingIdentifier_start_k env (_try_next_port env).

Definition start : SerialManager → SerialManager :=
  start_k env (_try_next_port env).

Definition _identify_device : SerialManager → SerialManager :=
  _identify_device_k env (_try_next_port env).

(** [auto_connect]; [availablePorts] is what
    [QSerialPortInfo.availablePorts()] returns at the call. *)
Definition auto_connect (vid pid : option Z) (availablePorts : list QSerialPortInfo)
  (m : SerialManager) : SerialManager :=
  let m := with_filters vid pid m in
  let m := with_available_ports availablePorts m in
  let m := with_port_added_conns (S (port_added_conns m)) m in
  _try_next_port env m.

(** [_handle_port_removed] *)
Definition _handle_port_removed (port_info : QSerialPortInfo) (m : SerialManager)
  : SerialManager :=
  if isOpen (_serial m)
     && bool_decide (portName (serial_port (_serial m)) = portName port_info)
  then disconnect m
  else with_available_ports
         (filter (λ p, portName p ≠ portName port_info) (_available_ports m)) m.

(** [_on_port_added] *)
Definition _on_port_added (port_info : QSerialPortInfo) (m : SerialManager)
  : SerialManager :=
  let m := with_available_ports (_available_ports m ++ [port_info]) m in
  if bool_decide (_state m = DISCONNECTED)
     && bool_decide (length (_available_ports m) = 1)
  then _try_next_port env m
  else m.

(** [_on_error] *)
Definition _on_error (error : SerialPortError) (m : SerialManager) : SerialManager :=
  if bool_decide (error ≠ NoError) then
    let error_message := errorString (_serial m) in
    let error_message :=
      if bool_decide (_state m = IDENTIFYING)
      then "Identification failed: " +:+ error_message
      else error_message in
    let m := disconnect m in
    emit (error_occurred error_message) m
  else m.

(** *** Signals delivered by the event loop *)

Definition run_ready_slot (slot : ReadySlot) (m : SerialManager) : SerialManager :=
  match slot with
  | Manager_on_ready_read => _on_ready_read m
  | Identifier_on_ready_read => SimpleIdentifier_on_ready_read m
  end.

(** A slot whose turn comes in an emission of [readyRead] is called if
    it is still connected. *)
Definition call_ready_slot (m : SerialManager) (slot : ReadySlot) : SerialManager :=
  if bool_decide (slot ∈ readyRead (_serial m)) then run_ready_slot slot m else m.

(** [QSerialPort.readyRead]: an open port received [data]. *)
Definition QSerialPort_readyRead (data : bytes) (m : SerialManager) : SerialManager :=
  if isOpen (_serial m) then
    let m := on_serial (receive data) m in
    foldl call_ready_slot m (readyRead (_serial m))
  else m.

(** [QTimer.timeout] of the identifier's single-shot timer. *)
Definition QTimer_timeout (m : SerialManager) : SerialManager :=
  if timer_active (_identifier m) then
    SimpleIdentifier_on_timeout (on_identifier (with_timer_active false) m)
  else m.

(** [QSerialPort.errorOccurred(error)], [errorString()] being [msg]. *)
Definition QSerialPort_errorOccurred (error : SerialPortError) (msg : string)
  (m : SerialManager) : SerialManager :=
  _on_error error (on_serial (with_errorString msg) m).

(** [PortMonitor.port_added(port)]: once for each connection made by
    [auto_connect]. *)
Definition PortMonitor_port_added (port_info : QSerialPortInfo) (m : SerialManager)
  : SerialManager :=
  Nat.iter (port_added_conns m) (_on_port_added port_info) m.

(** [PortMonitor.port_removed(port)]: connected once, by [__init__]. *)
Definition PortMonitor_port_removed (port_info : QSerialPortInfo) (m : SerialManager)
  : SerialManager :=
  _handle_port_removed port_info m.

End Manager.

(** *** Construction *)

Definition new_identifier (c : IdentifierClass) (id_command expected_response : bytes)
  (timeout_ms : Z) : SerialDeviceIdentifier :=
  {| class := c; _id_command := id_command; _expected_response := expected_response;
     _timeout_ms := timeout_ms; timer_active := false;
     identified_conns := 0; failed_conns := 0; signalled := [] |}.

(** [SerialManager.__init__] *)
Definition __init__ (identifier : SerialDeviceIdentifier) : SerialManager :=
  {| _vid := None; _pid := None;
     _serial := with_readyRead [Manager_on_ready_read] QSerialPort_new;
     _state := DISCONNECTED;
     _identifier := identifier;
     _available_ports := [];
     port_added_conns := 0;
     emitted := [] |}.

(** *** Runs *)

(** What can happen to a manager: a call of its public interface or a
    signal delivered by the event loop. *)
Inductive Op :=
| Call_auto_connect (vid pid : option Z) (availablePorts : list QSerialPortInfo)
| Call_disconnect
| Call_send (data : bytes)
| Sig_readyRead (data : bytes)
| Sig_timeout
| Sig_errorOccurred (error : SerialPortError) (msg : string)
| Sig_port_added (port_info : QSerialPortInfo)
| Sig_port_removed (port_info : QSerialPortInfo).

Definition step (env : Env) (op : Op) (m : SerialManager) : SerialManager :=
  match op with
  | Call_auto_connect vid pid ports => auto_connect env vid pid ports m
  | Call_disconnect => disconnect env m
  | Call_send data => send data m
  | Sig_readyRead data => QSerialPort_readyRead env data m
  | Sig_timeout => QTimer_timeout env m
  | Sig_errorOccurred error msg => QSerialPort_errorOccurred env error msg m
  | Sig_port_added p => PortMonitor_port_added env p m
  | Sig_port_removed p => PortMonitor_port_removed env p m
  end.

(** The manager after the operations [ops], first one first. *)
Definition run (env : Env) (ops : list Op) (m : SerialManager) : SerialManager :=
  foldl (λ m op, step env op m) m ops.

(** * Vocabulary of the properties *)

Abbreviation qlen m := (length (_available_ports m)).

(** Two versions of the nested call that agree on queues shorter than
    [N] and never make a queue longer. *)
Definition agree_below (N : nat) (k k' : SerialManager → SerialManager) : Prop :=
  ∀ m, qlen m < N → k m = k' m ∧ qlen (k m) ≤ qlen m.

(** The port is open exactly when the manager is not [DISCONNECTED]. *)
Definition coupled (m : SerialManager) : Prop :=
  isOpen (_serial m) = bool_decide (_state m ≠ DISCONNECTED).

(** Connections of the identifier's slot to [readyRead]. *)
Definition ident_slots (table : list ReadySlot) : nat :=
  length (filter (λ s, s = Identifier_on_ready_read) table).

(** The connection tables: the identifier's [_on_ready_read] is connected
    at most once, and [identified] and [failed] have as many connections
    one as the other. *)
Definition tables_ok (m : SerialManager) : Prop :=
  ident_slots (readyRead (_serial m)) ≤ 1
  ∧ identified_conns (_identifier m) = failed_conns (_identifier m).

(** Once [CONNECTED], the manager is no longer connected to the signals
    of its identifier. *)
Definition settled (m : SerialManager) : Prop :=
  _state m = CONNECTED → identified_conns (_identifier m) = 0.

Definition Inv (m : SerialManager) : Prop := coupled m ∧ tables_ok m ∧ settled m.

(** The records of what happened only grow: the signals the identifier
    emitted and the writes to the port. *)
Definition grows (m m' : SerialManager) : Prop :=
  signalled (_identifier m) `prefix_of` signalled (_identifier m')
  ∧ tx (_serial m) `prefix_of` tx (_serial m').

(** The record an emission of the identifier leaves. *)
Definition signal_recorded (sig : IdSignal) (m : SerialManager) : SerialManager :=
  on_identifier (λ i, with_signalled (signalled i ++ [sig]) i) m.

(** The [disconnected] events among the events emitted. *)
Definition count_disconnected (l : list Event) : nat :=
  length (filter (λ e, e = disconnected) l).

(** ** Values used in examples *)

Definition port (name : string) : QSerialPortInfo :=
  {| portName := name; vendorIdentifier := None; productIdentifier := None |}.

Definition COM_A : QSerialPortInfo := port "COM_A".
Definition COM_B : QSerialPortInfo := port "COM_B".

(** Python [b"..."] *)
Definition b (s : string) : bytes := String.list_byte_of_string s.

(** Every port opens, and the device answers [answer] to a blocking
    identifier ([None]: it stays silent). *)
Definition env_open (answer : option bytes) : Env :=
  {| open_result := λ _ _, None; wait_result := λ _, answer |}.

(** [BlockingIdentifier(b"ID?", b"OK")] and [SimpleIdentifier(b"ID?", b"OK")] *)
Definition blocking_OK : SerialDeviceIdentifier :=
  new_identifier BlockingIdentifier (b "ID?") (b "OK") 500.

Definition simple_OK : SerialDeviceIdentifier :=
  new_identifier SimpleIdentifier (b "ID?") (b "OK") 500.

(** * main.py: the status line of the window *)

(** [MainWindow.on_connected] and [MainWindow.on_disconnected]: the text
    they put in [status_label]. *)
Definition on_connected (port_name : string) : string :=
  "Status: Connected (" +:+ port_name +:+ ")".

Definition on_disconnected : string := "Status: Disconnected".

(** The text of [status_label] after the window received [events]; it is
    created with [QLabel("Status: Disconnected")], and only the slots of
    [connected] and [disconnected] set it. *)
Definition status_label (events : list Event) : string :=
  foldl (λ label e, match e with
                    | connected port_name => on_connected port_name
                    | disconnected => on_disconnected
                    | _ => label
                    end) "Status: Disconnected" events.

(** * Vocabulary of the further properties *)

(** [op] is not a call of [auto_connect]. *)
Definition not_auto_connect (op : Op) : Prop :=
  match op with Call_auto_connect _ _ _ => False | _ => True end.

(** The status line agrees with the manager. *)
Definition status_ok (m : SerialManager) : Prop :=
  status_label (emitted m)
  = if decide (_state m = CONNECTED)
    then on_connected (portName (serial_port (_serial m)))
    else on_disconnected.

(** Connections of the manager's slot to [readyRead]. *)
Definition manager_slots (table : list ReadySlot) : nat :=
  length (filter (λ s, s = Manager_on_ready_read) table).

(** Who listens to the port: the manager is connected to [readyRead] or
    to the signals of its identifier; the identifier is connected to
    [readyRead] at most once, never when its class is [BlockingIdentifier]
    and never while the manager is [CONNECTED]. *)
Definition listeners_ok (m : SerialManager) : Prop :=
  1 ≤ manager_slots (readyRead (_serial m)) + identified_conns (_identifier m)
  ∧ ident_slots (readyRead (_serial m)) ≤ 1
  ∧ (class (_identifier m) = BlockingIdentifier → ident_slots (readyRead (_serial m)) = 0)
  ∧ (_state m = CONNECTED → ident_slots (readyRead (_serial m)) = 0).

(** The filters are [vid] and [pid], the queue holds ports of [ports] only,
    and an open port is one of [ports] that passes the filters. *)
Definition within (vid pid : option Z) (ports : list QSerialPortInfo)
  (m : SerialManager) : Prop :=
  _vid m = vid ∧ _pid m = pid
  ∧ _available_ports m ⊆ ports
  ∧ (isOpen (_serial m) = true →
     serial_port (_serial m) ∈ ports
     ∧ filter_ok vid (vendorIdentifier (serial_port (_serial m))) = true
     ∧ filter_ok pid (productIdentifier (serial_port (_serial m))) = true).

(** A manager that never opened a port, never wrote, has no candidate and
    receives no port added signal. *)
Definition untouched (m : SerialManager) : Prop :=
  isOpen (_serial m) = false ∧ _state m = DISCONNECTED
  ∧ opens (_serial m) = 0 ∧ tx (_serial m) = []
  ∧ _available_ports m = [] ∧ signalled (_identifier m) = []
  ∧ port_added_conns m = 0 ∧ timer_active (_identifier m) = false.

Definition Inv_ui (m : SerialManager) : Prop := status_ok m ∧ listeners_ok m.

(** The manager is connected to [readyRead] at most once, and not at all
    while it is connected to the signals of its identifier. *)
Definition single_listener (m : SerialManager) : Prop :=
  manager_slots (readyRead (_serial m)) ≤ 1
  ∧ (0 < identified_conns (_identifier m) → manager_slots (readyRead (_serial m)) = 0).

(** * Properties *)

Arguments disconnect_k : simpl never.
Arguments emit_signal_k : simpl never.
Arguments _on_identified : simpl never.
Arguments BlockingIdentifier_start_k : simpl never.
Arguments SimpleIdentifier_start : simpl never.
Arguments SimpleIdentifier_on_ready_read_k : simpl never.
Arguments SimpleIdentifier_on_timeout_k : simpl never.
Arguments start_k : simpl never.
Arguments _identify_device_k : simpl never.
Arguments _try_next_port_k : simpl never.
Arguments _try_next_port : simpl never.

(** ** The port monitor *)

Lemma removed_names_app (a b : list PortMonitor.Signal) :
  PortMonitor.removed_names (a ++ b) = PortMonitor.removed_names a ++ PortMonitor.removed_names b.
Proof. unfold PortMonitor.removed_names. by rewrite omap_app. Qed.

Lemma removed_names_added (l : list QSerialPortInfo) :
  PortMonitor.removed_names (PortMonitor.port_added <$> l) = [].
Proof. induction l as [|p l IH]; [done|]. exact IH. Qed.

Lemma removed_names_removed (l : list QSerialPortInfo) :
  PortMonitor.removed_names (PortMonitor.port_removed <$> l) = portName <$> l.
Proof. induction l as [|p l IH]; [done|]. cbn. by f_equal. Qed.

Lemma added_names_app (a b : list PortMonitor.Signal) :
  PortMonitor.added_names (a ++ b) = PortMonitor.added_names a ++ PortMonitor.added_names b.
Proof. unfold PortMonitor.added_names. by rewrite omap_app. Qed.

Lemma added_names_added (l : list QSerialPortInfo) :
  PortMonitor.added_names (PortMonitor.port_added <$> l) = portName <$> l.
Proof. induction l as [|p l IH]; [done|]. cbn. by f_equal. Qed.

Lemma added_names_removed (l : list QSerialPortInfo) :
  PortMonitor.added_names (PortMonitor.port_removed <$> l) = [].
Proof. induction l as [|p l IH]; [done|]. exact IH. Qed.

(** The second loop of [PortMonitor._scan] never finds a port: it looks among the
    ports of the new snapshot for a name that is not in the snapshot. *)
Lemma filter_none {A} (P : A → Prop) `{!∀ x, Decision (P x)} (l : list A) :
  (∀ x, x ∈ l → ¬ P x) → filter P l = [].
Proof.
  induction l as [|x l IH]; intros Hall; [done|].
  rewrite filter_cons_False by (apply Hall; left).
  apply IH. intros y Hy. apply Hall. by right.
Qed.

Lemma scan_eliminados_nil (known : gset string) (ports : list QSerialPortInfo) :
  filter (λ port, portName port ∈ known ∖ PortMonitor.names ports) ports = [].
Proof.
  apply filter_none. intros p Hp Hin.
  apply elem_of_difference in Hin as [_ Hn]. apply Hn.
  unfold PortMonitor.names. apply elem_of_list_to_set, list_elem_of_fmap.
  by exists p.
Qed.

(** No tick emits [port_removed], whatever was known before. *)
Lemma scan_never_removed (known : gset string) (ports : list QSerialPortInfo) :
  PortMonitor.removed_names (PortMonitor._scan known ports).2 = [].
Proof.
  unfold PortMonitor._scan. cbn. rewrite scan_eliminados_nil.
  by rewrite removed_names_app, removed_names_added.
Qed.

(** The remembered set is replaced by the names of the snapshot. *)
Lemma scan_known (known : gset string) (ports : list QSerialPortInfo) :
  (PortMonitor._scan known ports).1 = PortMonitor.names ports.
Proof. done. Qed.

(** The [port_added] signals of a tick are the snapshot's ports whose
    name was not known, in snapshot order. *)
Lemma scan_added (known : gset string) (ports : list QSerialPortInfo) :
  PortMonitor.added_names (PortMonitor._scan known ports).2
  = filter (λ n, n ∉ known) (portName <$> ports).
Proof.
  unfold PortMonitor._scan. cbn [snd]. rewrite scan_eliminados_nil, app_nil_r, added_names_added.
  induction ports as [|p l IH]; [done|].
  rewrite fmap_cons, !filter_cons.
  destruct (decide (portName p ∉ known)); [rewrite fmap_cons|]; by rewrite IH.
Qed.

(** ** [_try_next_port] satisfies its defining equation

    The nested calls always find a shorter queue, so the depth allowed in
    [_try_next_port] is never used up. *)

Lemma iter_S {A} (f : A → A) (n : nat) (x : A) :
  Nat.iter (S n) f x = f (Nat.iter n f x).
Proof. done. Qed.

(** Use an agreement lemma at the state the goal is about. *)
Ltac agree_at lem :=
  match goal with
  | |- ?f ?m' = _ ∧ _ =>
      let He := fresh "He" in let Hl := fresh "Hl" in
      destruct (lem m') as [He Hl];
      [try eassumption; cbn; try lia ..|split; [exact He|cbn in Hl |- *; lia]]
  end.

Section Adequacy.
Context (env : Env) (N : nat) (k k' : SerialManager → SerialManager).
Hypothesis Hk : agree_below N k k'.

Lemma disconnect_k_ext m :
  qlen m < N →
  disconnect_k k m = disconnect_k k' m ∧ qlen (disconnect_k k m) ≤ qlen m.
Proof.
  intros Hm. unfold disconnect_k.
  destruct (isOpen (_serial m)); cbn;
    case_bool_decide; cbn; try done;
    match goal with |- k ?m' = _ ∧ _ =>
      destruct (Hk m') as [He Hl]; [exact Hm|split; [exact He|exact Hl]] end.
Qed.

Lemma _on_identified_qlen m : qlen (_on_identified m) ≤ qlen m.
Proof. unfold _on_identified. cbn. lia. Qed.

Lemma emit_signal_k_ext sig m :
  qlen m < N →
  emit_signal_k k sig m = emit_signal_k k' sig m
  ∧ qlen (emit_signal_k k sig m) ≤ qlen m.
Proof.
  intros Hm. unfold emit_signal_k.
  set (m0 := on_identifier _ m).
  assert (Hm0 : qlen m0 = qlen m) by done.
  rewrite <- Hm0 in *. clearbody m0. clear Hm0.
  destruct sig.
  - generalize (identified_conns (_identifier m0)). intros n.
    split; [done|]. induction n as [|n IH]; [done|].
    rewrite iter_S. case_bool_decide; [|done].
    etrans; [apply _on_identified_qlen|done].
  - generalize (failed_conns (_identifier m0)). intros n.
    induction n as [|n [IHe IHl]]; [done|].
    rewrite !iter_S, <- IHe.
    case_bool_decide; [|done].
    destruct (disconnect_k_ext (Nat.iter n
      (λ m, if bool_decide (0 < failed_conns (_identifier m))
            then disconnect_k k m else m) m0)) as [He Hl]; [lia|].
    split; [done|lia].
Qed.

Lemma start_k_ext m :
  qlen m < N →
  start_k env k m = start_k env k' m ∧ qlen (start_k env k m) ≤ qlen m.
Proof.
  intros Hm. unfold start_k, BlockingIdentifier_start_k, SimpleIdentifier_start.
  destruct (class (_identifier m)); [|done].
  cbn. destruct (wait_result env _); [case_match|];
    agree_at (emit_signal_k_ext identified) || agree_at (emit_signal_k_ext failed).
Qed.

Lemma _identify_device_k_ext m :
  qlen m < N →
  _identify_device_k env k m = _identify_device_k env k' m
  ∧ qlen (_identify_device_k env k m) ≤ qlen m.
Proof. intros Hm. unfold _identify_device_k. agree_at start_k_ext. Qed.

Lemma while_available_ports_k_ext q m :
  _available_ports m = q → length q ≤ N →
  while_available_ports_k env k q m = while_available_ports_k env k' q m
  ∧ qlen (while_available_ports_k env k q m) ≤ length q.
Proof.
  revert m. induction q as [|p rest IH]; intros m Hq Hlen.
  { cbn. by rewrite Hq. }
  cbn [while_available_ports_k length] in *.
  destruct (negb (_port_matches_filters _ p)).
  { destruct (IH (with_available_ports rest m)) as [He Hl]; [done|lia|].
    split; [done|lia]. }
  unfold open. cbn. destruct (open_result env _ p); cbn.
  - match goal with |- context [while_available_ports_k env k rest ?m'] =>
      destruct (IH m') as [He Hl]; [done|lia|] end.
    split; [done|lia].
  - match goal with |- context [_identify_device_k env k ?m'] =>
      destruct (_identify_device_k_ext m') as [He Hl]; [cbn; lia|] end.
    split; [done|]. cbn in Hl. lia.
Qed.

Lemma _try_next_port_k_ext m :
  qlen m ≤ N →
  _try_next_port_k env k m = _try_next_port_k env k' m
  ∧ qlen (_try_next_port_k env k m) ≤ qlen m.
Proof.
  intros Hm. unfold _try_next_port_k.
  destruct (isOpen (_serial m) || bool_decide (_state m ≠ DISCONNECTED)); [done|].
  by apply while_available_ports_k_ext.
Qed.

End Adequacy.

Lemma _try_next_port_fuel_enough env N g g' :
  N ≤ g → N ≤ g' →
  agree_below N (_try_next_port_fuel env g) (_try_next_port_fuel env g').
Proof.
  revert g g'. induction N as [|N IH]; intros g g' Hg Hg' m Hm; [lia|].
  destruct g as [|g]; [lia|]. destruct g' as [|g']; [lia|].
  cbn [_try_next_port_fuel].
  apply (_try_next_port_k_ext env N); [apply IH; lia|lia].
Qed.

Lemma _try_next_port_agree env N g :
  N ≤ g → agree_below N (_try_next_port_fuel env g) (_try_next_port env).
Proof.
  intros Hg m Hm. unfold _try_next_port.
  apply (_try_next_port_fuel_enough env (S (qlen m))); lia.
Qed.

(** Any depth above the length of the queue gives the same result. *)
Lemma _try_next_port_fuel_eq env fuel m :
  qlen m < fuel → _try_next_port_fuel env fuel m = _try_next_port env m.
Proof.
  intros H.
  exact (proj1 (_try_next_port_agree env (S (qlen m)) fuel ltac:(lia) m ltac:(lia))).
Qed.

(** [_try_next_port] is the function the source defines: its body, with
    the nested calls being calls of [_try_next_port] itself. *)
Lemma _try_next_port_unfold env m :
  _try_next_port env m = _try_next_port_k env (_try_next_port env) m.
Proof.
  unfold _try_next_port at 1. cbn [_try_next_port_fuel].
  apply (_try_next_port_k_ext env (qlen m)); [|done].
  by apply _try_next_port_agree.
Qed.

Lemma _try_next_port_qlen env m : qlen (_try_next_port env m) ≤ qlen m.
Proof.
  rewrite _try_next_port_unfold.
  apply (_try_next_port_k_ext env (qlen m) _ (_try_next_port env)); [|done].
  intros m' Hm'. split; [done|].
  apply (_try_next_port_agree env (S (qlen m'))); lia.
Qed.

(** The methods of the manager, with the nested call folded back. *)
Lemma disconnect_eq env m :
  disconnect env m =
    let m := if isOpen (_serial m) then on_serial close m else m in
    let previous_state := _state m in
    let m := with_state DISCONNECTED m in
    if bool_decide (previous_state ≠ IDENTIFYING)
    then _try_next_port env (emit disconnected m) else m.
Proof. done. Qed.

(** ** The state of the manager and the state of the port *)

Lemma ident_slots_connect_manager t :
  ident_slots (connect_slot Manager_on_ready_read t) = ident_slots t.
Proof.
  unfold ident_slots, connect_slot. rewrite filter_app, length_app.
  rewrite filter_cons_False by done. cbn. lia.
Qed.

Lemma ident_slots_connect_identifier t :
  ident_slots (connect_slot Identifier_on_ready_read t) = S (ident_slots t).
Proof.
  unfold ident_slots, connect_slot. rewrite filter_app, length_app.
  rewrite filter_cons_True by done. cbn. lia.
Qed.

Lemma ident_slots_disconnect_manager t :
  ident_slots (disconnect_slot Manager_on_ready_read t) = ident_slots t.
Proof.
  unfold ident_slots. induction t as [|s t IH]; [done|].
  cbn [disconnect_slot]. destruct (decide (s = Manager_on_ready_read)) as [->|Hs].
  - by rewrite filter_cons_False.
  - destruct s; [done|]. rewrite !filter_cons_True by done. cbn. by rewrite IH.
Qed.

Lemma ident_slots_disconnect_identifier t :
  ident_slots (disconnect_slot Identifier_on_ready_read t) = 0.
Proof.
  unfold ident_slots. induction t as [|s t IH]; [done|].
  cbn [disconnect_slot]. destruct (decide (s = Identifier_on_ready_read)) as [->|Hs].
  - exact IH.
  - by rewrite filter_cons_False.
Qed.

Arguments ident_slots : simpl never.
Arguments connect_slot : simpl never.

Ltac inv_simpl :=
  unfold Inv, coupled, tables_ok, settled, on_serial, on_identifier, emit; cbn;
  rewrite ?ident_slots_connect_manager, ?ident_slots_connect_identifier,
    ?ident_slots_disconnect_manager, ?ident_slots_disconnect_identifier.

Section Invariant.
Context (env : Env) (k : SerialManager → SerialManager).
Hypothesis Hk : ∀ m, Inv m → Inv (k m).

Lemma disconnect_k_inv m : tables_ok m → Inv (disconnect_k k m).
Proof.
  intros Ht. unfold disconnect_k.
  destruct (isOpen (_serial m)) eqn:Ho; cbn; case_bool_decide; try apply Hk;
    inv_simpl; rewrite ?Ho; done.
Qed.

Lemma _on_identified_inv m :
  isOpen (_serial m) = true → tables_ok m →
  coupled (_on_identified m) ∧ tables_ok (_on_identified m)
  ∧ isOpen (_serial (_on_identified m)) = true
  ∧ identified_conns (_identifier (_on_identified m)) = 0.
Proof.
  intros Ho [Hs Hc]. unfold _on_identified. inv_simpl. rewrite Ho. done.
Qed.

(** The slot calls of one emission of [identified], [j] being the
    connections there were when it started: the first call removes them
    all. *)
Lemma identified_slots_inv j m :
  isOpen (_serial m) = true → coupled m → tables_ok m →
  let m' := Nat.iter j (λ m, if bool_decide (0 < identified_conns (_identifier m))
                             then _on_identified m else m) m in
  coupled m' ∧ tables_ok m' ∧ isOpen (_serial m') = true
  ∧ (j = 0 ∨ identified_conns (_identifier m') = 0).
Proof.
  intros Ho Hc Ht. induction j as [|j IH]; intros m'.
  { subst m'. cbn. repeat split; try done; try apply Ht. by left. }
  subst m'. rewrite iter_S.
  destruct IH as (IHc & IHt & IHo & IHn).
  case_bool_decide as Hpos.
  - destruct (_on_identified_inv _ IHo IHt) as (? & ? & ? & Hn).
    repeat split; try done; try apply H0. by right.
  - repeat split; try done; try apply IHt. right. lia.
Qed.

Lemma emit_identified_inv m :
  isOpen (_serial m) = true → Inv m → Inv (emit_signal_k k identified m).
Proof.
  intros Ho (Hc & Ht & Hs). unfold emit_signal_k.
  set (m0 := on_identifier _ m).
  destruct (identified_slots_inv (identified_conns (_identifier m0)) m0)
    as (Hc' & Ht' & _ & Hn); [done..|].
  split; [done|]. split; [done|]. intros _.
  destruct Hn as [Hn|Hn]; [|done]. by rewrite Hn.
Qed.

Lemma emit_failed_inv m : Inv m → Inv (emit_signal_k k failed m).
Proof.
  intros Hi. unfold emit_signal_k.
  set (m0 := on_identifier _ m).
  assert (H0 : Inv m0) by exact Hi.
  clearbody m0. generalize (failed_conns (_identifier m0)). intros n.
  induction n as [|n IH]; [done|].
  rewrite iter_S. case_bool_decide; [|done].
  apply disconnect_k_inv, IH.
Qed.

Lemma BlockingIdentifier_start_k_inv m :
  isOpen (_serial m) = true → Inv m → Inv (BlockingIdentifier_start_k env k m).
Proof.
  intros Ho Hi. unfold BlockingIdentifier_start_k. cbn.
  destruct (wait_result env _); [case_match|];
    (apply emit_identified_inv || apply emit_failed_inv); done.
Qed.

Lemma SimpleIdentifier_start_inv m : Inv m → Inv (SimpleIdentifier_start m).
Proof.
  intros (Hc & (Hs & Hn) & Hj). unfold SimpleIdentifier_start. inv_simpl.
  split; [done|]. split; [|done]. split; [lia|done].
Qed.

Lemma start_k_inv m :
  isOpen (_serial m) = true → Inv m → Inv (start_k env k m).
Proof.
  intros Ho Hi. unfold start_k. destruct (class _).
  - by apply BlockingIdentifier_start_k_inv.
  - by apply SimpleIdentifier_start_inv.
Qed.

Lemma _identify_device_k_inv m :
  isOpen (_serial m) = true → tables_ok m → Inv (_identify_device_k env k m).
Proof.
  intros Ho [Hs Hn]. unfold _identify_device_k.
  apply start_k_inv; [done|]. inv_simpl. rewrite Ho, Hn. done.
Qed.

Lemma while_available_ports_k_inv q m :
  isOpen (_serial m) = false → _state m = DISCONNECTED → tables_ok m →
  Inv (while_available_ports_k env k q m).
Proof.
  revert m. induction q as [|p rest IH]; intros m Ho Hst Ht.
  { cbn. split; [|split; [done|]].
    - unfold coupled. rewrite Ho, Hst. done.
    - intros Hcon. by rewrite Hst in Hcon. }
  cbn [while_available_ports_k].
  destruct (negb (_port_matches_filters _ p)); [by apply IH|].
  unfold open. cbn. destruct (open_result env _ p); cbn.
  - by apply IH.
  - by apply _identify_device_k_inv.
Qed.

Lemma _try_next_port_k_inv m : Inv m → Inv (_try_next_port_k env k m).
Proof.
  intros (Hc & Ht & Hs). unfold _try_next_port_k.
  destruct (isOpen (_serial m)) eqn:Ho; [done|]. cbn.
  case_bool_decide as Hst; [done|]. cbn.
  apply while_available_ports_k_inv; [done| |done].
  by destruct (_state m).
Qed.

Lemma SimpleIdentifier_on_ready_read_k_inv m :
  isOpen (_serial m) = true → Inv m → Inv (SimpleIdentifier_on_ready_read_k k m).
Proof.
  intros Ho (Hc & (Hs & Hn) & Hj).
  unfold SimpleIdentifier_on_ready_read_k. cbn.
  case_match; (apply emit_identified_inv || apply emit_failed_inv);
    try done; inv_simpl; (split; [done|]); (split; [|done]); (split; [lia|done]).
Qed.

Lemma SimpleIdentifier_on_timeout_k_inv m :
  Inv m → Inv (SimpleIdentifier_on_timeout_k k m).
Proof.
  intros (Hc & (Hs & Hn) & Hj). unfold SimpleIdentifier_on_timeout_k.
  apply emit_failed_inv. inv_simpl. split; [done|]. split; [|done]. split; [lia|done].
Qed.

End Invariant.

Lemma _try_next_port_fuel_inv env fuel m :
  Inv m → Inv (_try_next_port_fuel env fuel m).
Proof.
  revert m. induction fuel as [|fuel IH]; intros m Hi; [done|].
  cbn [_try_next_port_fuel]. by apply _try_next_port_k_inv.
Qed.

Lemma _try_next_port_inv env m : Inv m → Inv (_try_next_port env m).
Proof. apply _try_next_port_fuel_inv. Qed.

(** *** Every operation keeps the invariant *)

Section Operations.
Context (env : Env).

Lemma disconnect_inv m : Inv m → Inv (disconnect env m).
Proof.
  intros (_ & Ht & _). apply disconnect_k_inv; [apply _try_next_port_inv|done].
Qed.

Lemma auto_connect_inv vid pid ports m : Inv m → Inv (auto_connect env vid pid ports m).
Proof. intros Hi. unfold auto_connect. by apply _try_next_port_inv. Qed.

Lemma send_inv data m : Inv m → Inv (send data m).
Proof. intros Hi. unfold send. by destruct (isOpen _). Qed.

Lemma _on_port_added_inv p m : Inv m → Inv (_on_port_added env p m).
Proof.
  intros Hi. unfold _on_port_added. cbn.
  destruct (_ && _); [by apply _try_next_port_inv|done].
Qed.

Lemma PortMonitor_port_added_inv p m : Inv m → Inv (PortMonitor_port_added env p m).
Proof.
  intros Hi. unfold PortMonitor_port_added.
  generalize (port_added_conns m). intros n.
  induction n as [|n IH]; [done|]. rewrite iter_S. by apply _on_port_added_inv.
Qed.

Lemma _handle_port_removed_inv p m : Inv m → Inv (_handle_port_removed env p m).
Proof.
  intros Hi. unfold _handle_port_removed.
  destruct (_ && _); [by apply disconnect_inv|done].
Qed.

Lemma _on_error_inv error m : Inv m → Inv (_on_error env error m).
Proof.
  intros Hi. unfold _on_error. case_bool_decide; [|done].
  by apply (disconnect_inv m).
Qed.

Lemma QTimer_timeout_inv m : Inv m → Inv (QTimer_timeout env m).
Proof.
  intros Hi. unfold QTimer_timeout. destruct (timer_active _); [|done].
  apply SimpleIdentifier_on_timeout_k_inv; [apply _try_next_port_inv|done].
Qed.

(** The slots of one [readyRead] emission, [table] being those still
    to be called: the identifier's slot is among them at most once,
    and the port is still open when its turn comes. *)
Lemma readyRead_slots_inv table m :
  Inv m → ident_slots table ≤ 1 →
  (0 < ident_slots table → isOpen (_serial m) = true) →
  Inv (foldl (call_ready_slot env) m table).
Proof.
  revert m. induction table as [|slot table IH]; intros m Hi Hn Ho; [done|].
  cbn [foldl]. unfold call_ready_slot at 2. destruct slot.
  - case_bool_decide; (apply IH; [exact Hi|exact Hn|exact Ho]).
  - assert (Hn' : ident_slots table = 0).
    { unfold ident_slots in *. rewrite filter_cons_True in Hn by done.
      cbn in Hn. lia. }
    case_bool_decide; (apply IH; [|lia|lia]); [|done].
    apply SimpleIdentifier_on_ready_read_k_inv;
      [apply _try_next_port_inv| |done].
    apply Ho. unfold ident_slots. rewrite filter_cons_True by done. cbn. lia.
Qed.

Lemma QSerialPort_readyRead_inv data m : Inv m → Inv (QSerialPort_readyRead env data m).
Proof.
  intros Hi. unfold QSerialPort_readyRead.
  destruct (isOpen (_serial m)) eqn:Ho; [|done].
  apply readyRead_slots_inv; [done|apply Hi|done].
Qed.

Lemma step_inv op m : Inv m → Inv (step env op m).
Proof.
  intros Hi. destruct op; cbn [step].
  - by apply auto_connect_inv.
  - by apply disconnect_inv.
  - by apply send_inv.
  - by apply QSerialPort_readyRead_inv.
  - by apply QTimer_timeout_inv.
  - by apply _on_error_inv.
  - by apply PortMonitor_port_added_inv.
  - by apply _handle_port_removed_inv.
Qed.

Lemma run_inv ops m : Inv m → Inv (run env ops m).
Proof.
  revert m. induction ops as [|op ops IH]; intros m Hi; [done|].
  cbn. apply IH, step_inv, Hi.
Qed.

End Operations.

Lemma init_inv c id_command expected_response timeout_ms :
  Inv (__init__ (new_identifier c id_command expected_response timeout_ms)).
Proof.
  repeat split; cbn; try done.
  unfold ident_slots. rewrite filter_cons_False by done. cbn. lia.
Qed.


(** C3 (the code departs from it). A tick whose snapshot lacks a
    remembered port must emit one port_removed for it.  With "COM1"
    remembered and an empty snapshot, and with "COM1" and "COM2" remembered
    and only "COM2" in the snapshot, [_scan] emits no signal at all: its
    second loop runs over the snapshot, where a removed port cannot be. *)
Theorem scan_emits_no_port_removed_for_a_removed_port :
  PortMonitor._scan {[ "COM1" ]} [] = (∅, [])
  ∧ (PortMonitor._scan ({[ "COM1" ]} ∪ {[ "COM2" ]}) [port "COM2"]).2 = [].
Proof. split; [reflexivity|vm_compute; reflexivity]. Qed.

(** ** Signals of the identifier once the manager is connected *)




(** ** What was signalled and written stays signalled and written *)

#[global] Instance grows_preorder : PreOrder grows.
Proof.
  split.
  - intros m. split; reflexivity.
  - intros m1 m2 m3 [Ha Hb] [Hc Hd]. split; etrans; done.
Qed.

(** A step that leaves both records alone or appends to them. *)
Lemma grows_same m m' :
  signalled (_identifier m') = signalled (_identifier m) →
  tx (_serial m') = tx (_serial m) → grows m m'.
Proof. intros Hs Ht. split; [by rewrite Hs|by rewrite Ht]. Qed.

Section Grows.
Context (env : Env) (k : SerialManager → SerialManager).
Hypothesis Hk : ∀ m, grows m (k m).

Lemma disconnect_k_grows m : grows m (disconnect_k k m).
Proof.
  unfold disconnect_k.
  destruct (isOpen (_serial m)); cbn; case_bool_decide;
    try (etrans; [|apply Hk]); by apply grows_same.
Qed.

Lemma _on_identified_grows m : grows m (_on_identified m).
Proof. by apply grows_same. Qed.

Lemma emit_signal_k_grows sig m : grows (signal_recorded sig m) (emit_signal_k k sig m).
Proof.
  unfold emit_signal_k. fold (signal_recorded sig m).
  generalize (signal_recorded sig m). intros m0.
  destruct sig.
  - generalize (identified_conns (_identifier m0)). intros n.
    induction n as [|n IH]; [done|]. rewrite iter_S.
    case_bool_decide; [|done]. etrans; [exact IH|apply _on_identified_grows].
  - generalize (failed_conns (_identifier m0)). intros n.
    induction n as [|n IH]; [done|]. rewrite iter_S.
    case_bool_decide; [|done]. etrans; [exact IH|apply disconnect_k_grows].
Qed.

Lemma signal_recorded_grows sig m : grows m (signal_recorded sig m).
Proof. split; cbn; [by apply prefix_app_r|done]. Qed.

Lemma emit_signal_k_grows' sig m : grows m (emit_signal_k k sig m).
Proof. etrans; [apply (signal_recorded_grows sig)|apply emit_signal_k_grows]. Qed.

Lemma BlockingIdentifier_start_k_grows m : grows m (BlockingIdentifier_start_k env k m).
Proof.
  unfold BlockingIdentifier_start_k. cbn.
  destruct (wait_result env _); [case_match|];
    (etrans; [|apply emit_signal_k_grows']);
    (split; cbn; [done|by apply prefix_app_r]).
Qed.

Lemma SimpleIdentifier_start_grows m : grows m (SimpleIdentifier_start m).
Proof. split; cbn; [done|by apply prefix_app_r]. Qed.

Lemma start_k_grows m : grows m (start_k env k m).
Proof.
  unfold start_k. destruct (class _).
  - apply BlockingIdentifier_start_k_grows.
  - apply SimpleIdentifier_start_grows.
Qed.

Lemma _identify_device_k_grows m : grows m (_identify_device_k env k m).
Proof.
  unfold _identify_device_k. etrans; [|apply start_k_grows]. by apply grows_same.
Qed.

Lemma while_available_ports_k_grows q m : grows m (while_available_ports_k env k q m).
Proof.
  revert m. induction q as [|p rest IH]; intros m; [done|].
  cbn [while_available_ports_k].
  destruct (negb (_port_matches_filters _ p)).
  { etrans; [|apply IH]. by apply grows_same. }
  unfold open. cbn. destruct (open_result env _ p); cbn.
  - etrans; [|apply IH]. by apply grows_same.
  - etrans; [|apply _identify_device_k_grows]. by apply grows_same.
Qed.

Lemma _try_next_port_k_grows m : grows m (_try_next_port_k env k m).
Proof.
  unfold _try_next_port_k. destruct (_ || _); [done|].
  apply while_available_ports_k_grows.
Qed.

End Grows.

Lemma _try_next_port_fuel_grows env fuel m : grows m (_try_next_port_fuel env fuel m).
Proof.
  revert m. induction fuel as [|fuel IH]; intros m; [done|].
  cbn [_try_next_port_fuel]. by apply _try_next_port_k_grows.
Qed.

Lemma _try_next_port_grows env m : grows m (_try_next_port env m).
Proof. apply _try_next_port_fuel_grows. Qed.

Lemma emit_signal_grows env sig m : grows (signal_recorded sig m) (emit_signal env sig m).
Proof. apply emit_signal_k_grows, _try_next_port_grows. Qed.

(** ** The blocking identifier *)

(** C5 (amended). [BlockingIdentifier.start] writes the command, and the
    signal it emits is identified exactly when an answer arrived in time
    and the answer, stripped of leading and trailing ASCII whitespace, is
    the expected response; it is failed otherwise, in particular when the
    time runs out.  What follows in the two records belongs to what the
    manager did in reaction. *)
Theorem blocking_start_signals_by_stripped_response (env : Env) (m : SerialManager) :
  ∃ (sig : IdSignal) (later : list IdSignal) (later_tx : list bytes),
    signalled (_identifier (BlockingIdentifier_start env m))
    = signalled (_identifier m) ++ sig :: later
    ∧ tx (_serial (BlockingIdentifier_start env m))
      = tx (_serial m) ++ _id_command (_identifier m) :: later_tx
    ∧ (sig = identified ↔
         ∃ data, wait_result env (opens (_serial m)) = Some data
                 ∧ strip (rx (_serial m) ++ data) = _expected_response (_identifier m))
    ∧ (sig = failed ↔
         ¬ ∃ data, wait_result env (opens (_serial m)) = Some data
                   ∧ strip (rx (_serial m) ++ data) = _expected_response (_identifier m)).
Proof.
  unfold BlockingIdentifier_start, BlockingIdentifier_start_k. cbn.
  destruct (wait_result env (opens (_serial m))) as [data|] eqn:Hw;
    [unfold response_ok; cbn; case_bool_decide as Hr|];
    match goal with |- context [emit_signal_k _ ?sig ?m1] =>
      destruct (emit_signal_grows env sig m1) as [[later Hs] [later_tx Ht]];
      unfold emit_signal in Hs, Ht;
      exists sig, later, later_tx
    end;
    (split; [rewrite Hs; cbn; by rewrite <- app_assoc|]);
    (split; [rewrite Ht; cbn; by rewrite <- app_assoc|]).
  - split; [split; [by exists data|done]|].
    split; [done|]. intros Hn. destruct Hn. by exists data.
  - split; [split; [done|]|].
    + intros (d & Hd & Heq). by simplify_eq.
    + split; [|done]. intros _ (d & Hd & Heq). by simplify_eq.
  - split; [split; [done|]|].
    + by intros (d & Hd & _).
    + split; [|done]. by intros _ (d & Hd & _).
Qed.

(** C5 as stated fails: the device answers [b" OK"] to an identifier
    expecting [b"OK"].  Stripped of trailing whitespace only, the answer is
    not the expected response, yet the identifier signals identified and the
    manager connects: [strip()] removes leading whitespace as well. *)
Lemma blocking_start_strips_leading_whitespace_too :
  let env := env_open (Some (b " OK")) in
  let m := run env [Call_auto_connect None None [COM_A]] (__init__ blocking_OK) in
  rstrip (b " OK") ≠ _expected_response blocking_OK
  ∧ signalled (_identifier m) = [identified]
  ∧ _state m = CONNECTED.
Proof.
  split; [|split; vm_compute; reflexivity].
  vm_compute. discriminate.
Qed.

(** ** Failure of an identification *)

Lemma _try_next_port_nil env m : _available_ports m = [] → _try_next_port env m = m.
Proof.
  intros Hq. rewrite _try_next_port_unfold. unfold _try_next_port_k.
  destruct (_ || _); [done|]. by rewrite Hq.
Qed.

(** [disconnect] in the IDENTIFYING state: the port is closed, the state
    set, and the method returns. *)
Lemma disconnect_identifying_eq env m :
  _state m = IDENTIFYING →
  disconnect env m
  = with_state DISCONNECTED (if isOpen (_serial m) then on_serial close m else m).
Proof.
  intros Hst. rewrite disconnect_eq.
  destruct (isOpen (_serial m)); cbn; rewrite Hst; done.
Qed.

(** C1 (the code departs from it).  After a failed identification the
    manager must close the port, become DISCONNECTED without a disconnected
    event, and go on with the candidates left in the queue.  Two ports,
    both open; the first one fails its identification (time-out of the
    non-blocking identifier, or a wrong answer to the blocking one).  The
    port is closed, the manager is DISCONNECTED and no event was emitted,
    but the second port is still in the queue and was never opened: the
    loop over the candidates was not resumed, although it had a port to
    try. *)
Theorem failed_identification_leaves_candidates_untried :
  let env := env_open (Some (b "NO")) in
  let m_simple := run env [Call_auto_connect None None [COM_A; COM_B]; Sig_timeout]
                      (__init__ simple_OK) in
  let m_blocking := run env [Call_auto_connect None None [COM_A; COM_B]]
                        (__init__ blocking_OK) in
  (signalled (_identifier m_simple) = [failed]
   ∧ _state m_simple = DISCONNECTED
   ∧ _available_ports m_simple = [COM_B]
   ∧ emitted m_simple = []
   ∧ opens (_serial m_simple) = 1
   ∧ _state (_try_next_port env m_simple) = IDENTIFYING)
  ∧ (signalled (_identifier m_blocking) = [failed]
     ∧ _state m_blocking = DISCONNECTED
     ∧ _available_ports m_blocking = [COM_B]
     ∧ emitted m_blocking = []
     ∧ opens (_serial m_blocking) = 1).
Proof. vm_compute. repeat split. Qed.

(** The same failure once [failed] is connected to [disconnect] twice,
    which it is from the second attempt on since a failure leaves the
    connections in place: the first call of [disconnect] closes the port in
    silence, the second one finds the manager DISCONNECTED, emits
    disconnected and does go on with the queue.  Here a second
    [auto_connect] finds the same three ports, none of which answers as
    expected: all three are opened. *)
Lemma second_failed_identification_goes_on_with_the_queue :
  let env := env_open (Some (b "NO")) in
  let ports := [COM_A; COM_B; port "COM_C"] in
  let m1 := run env [Call_auto_connect None None ports] (__init__ blocking_OK) in
  let m2 := run env [Call_auto_connect None None ports] m1 in
  (opens (_serial m1) = 1 ∧ _available_ports m1 = [COM_B; port "COM_C"]
   ∧ failed_conns (_identifier m1) = 1)
  ∧ opens (_serial m2) = 4
  ∧ _available_ports m2 = []
  ∧ _state m2 = DISCONNECTED
  ∧ signalled (_identifier m2) = [failed; failed; failed; failed]
  ∧ 0 < count_disconnected (emitted m2).
Proof. vm_compute. repeat split; lia. Qed.

(** ** [disconnect] twice *)

(** C7 (amended). With an empty candidate queue, two [disconnect()] calls in
    a row leave the manager DISCONNECTED with the port closed, and emit one
    disconnected event when the first call was made while IDENTIFYING and
    two otherwise: every call made in another state than IDENTIFYING emits
    one, also when the manager is DISCONNECTED already. *)
Theorem disconnect_twice_with_empty_queue (env : Env) (m : SerialManager) :
  _available_ports m = [] →
  let m2 := disconnect env (disconnect env m) in
  _state m2 = DISCONNECTED
  ∧ isOpen (_serial m2) = false
  ∧ emitted m2 = emitted m ++ (if bool_decide (_state m = IDENTIFYING)
                               then [disconnected]
                               else [disconnected; disconnected]).
Proof.
  intros Hq m2. subst m2. rewrite (disconnect_eq env m).
  assert (Hnn : ∀ st : SerialManagerState, st = IDENTIFYING → ¬ st ≠ IDENTIFYING)
    by (intros st Heq Hne; by apply Hne).
  destruct (isOpen (_serial m)) eqn:Ho; cbn;
    destruct (decide (_state m = IDENTIFYING)) as [Hst|Hst];
    rewrite ?(bool_decide_eq_true_2 _ Hst), ?(bool_decide_eq_false_2 _ Hst),
      ?(bool_decide_eq_false_2 _ (Hnn _ Hst));
    rewrite ?_try_next_port_nil by done;
    rewrite disconnect_eq; cbn; rewrite ?Ho; cbn;
    rewrite ?_try_next_port_nil by done;
    rewrite (bool_decide_eq_true_2 (DISCONNECTED ≠ IDENTIFYING)) by done;
    cbn; rewrite ?Ho, <- ?app_assoc; done.
Qed.

Lemma disconnect_twice_with_empty_queue_witness :
  let env := env_open (Some (b "OK")) in
  let m := run env [Call_auto_connect None None [COM_A]] (__init__ blocking_OK) in
  _available_ports m = []
  ∧ _state (disconnect env (disconnect env m)) = DISCONNECTED
  ∧ isOpen (_serial (disconnect env (disconnect env m))) = false
  ∧ emitted (disconnect env (disconnect env m))
    = emitted m ++ (if bool_decide (_state m = IDENTIFYING)
                    then [disconnected] else [disconnected; disconnected]).
Proof.
  split; [reflexivity|].
  apply (disconnect_twice_with_empty_queue (env_open (Some (b "OK")))
           (run (env_open (Some (b "OK"))) [Call_auto_connect None None [COM_A]]
                (__init__ blocking_OK))).
  reflexivity.
Defined.

(** C7 as stated fails.  From CONNECTED, and from the freshly constructed
    manager, two calls emit two disconnected events.  From IDENTIFYING with a
    second candidate queued, the second call goes on to that candidate and
    leaves the manager IDENTIFYING. *)
Lemma disconnect_twice_emits_two_disconnected :
  let env := env_open (Some (b "OK")) in
  let m_connected := run env [Call_auto_connect None None [COM_A]] (__init__ blocking_OK) in
  let m_new := __init__ blocking_OK in
  let m_identifying :=
    run env [Call_auto_connect None None [COM_A; COM_B]] (__init__ simple_OK) in
  (_state m_connected = CONNECTED
   ∧ count_disconnected (emitted m_connected) = 0
   ∧ count_disconnected (emitted (disconnect env (disconnect env m_connected))) = 2)
  ∧ count_disconnected (emitted (disconnect env (disconnect env m_new))) = 2
  ∧ (_state m_identifying = IDENTIFYING
     ∧ _state (disconnect env (disconnect env m_identifying)) = IDENTIFYING).
Proof. vm_compute. repeat split. Qed.

(** ** A port is removed *)

(** C8 (amended). When the removed port is the open one, the handler is
    [disconnect()]; otherwise it only takes the port's name out of the
    queue.  From CONNECTED with an empty queue, the removal of the open port
    leaves the manager DISCONNECTED, emits disconnected once, and a
    [send()] that follows changes nothing. *)
Theorem port_removed_is_disconnect_or_queue_removal
  (env : Env) (port_info : QSerialPortInfo) (m : SerialManager) :
  (isOpen (_serial m) = true →
   portName (serial_port (_serial m)) = portName port_info →
   _handle_port_removed env port_info m = disconnect env m)
  ∧ (¬ (isOpen (_serial m) = true
        ∧ portName (serial_port (_serial m)) = portName port_info) →
     _handle_port_removed env port_info m
     = with_available_ports
         (filter (λ p, portName p ≠ portName port_info) (_available_ports m)) m)
  ∧ (isOpen (_serial m) = true →
     portName (serial_port (_serial m)) = portName port_info →
     _state m = CONNECTED → _available_ports m = [] →
     let m' := _handle_port_removed env port_info m in
     _state m' = DISCONNECTED
     ∧ isOpen (_serial m') = false
     ∧ emitted m' = emitted m ++ [disconnected]
     ∧ ∀ data, send data m' = m').
Proof.
  unfold _handle_port_removed. split; [|split].
  - intros Ho Hn. rewrite Ho. cbn. by rewrite bool_decide_eq_true_2.
  - intros Hno. destruct (isOpen (_serial m)); [|done]. cbn.
    rewrite bool_decide_eq_false_2; [done|]. intros Hn. by apply Hno.
  - intros Ho Hn Hst Hq. rewrite Ho. cbn. rewrite bool_decide_eq_true_2 by done.
    rewrite disconnect_eq, Ho. cbn. rewrite Hst. cbn.
    rewrite _try_next_port_nil by done. cbn.
    repeat split.
Qed.

Lemma port_removed_is_disconnect_or_queue_removal_witness :
  let env := env_open (Some (b "OK")) in
  let m := run env [Call_auto_connect None None [COM_A]] (__init__ blocking_OK) in
  (isOpen (_serial m) = true
   ∧ portName (serial_port (_serial m)) = portName COM_A
   ∧ _state m = CONNECTED ∧ _available_ports m = [])
  ∧ (let m' := _handle_port_removed env COM_A m in
     _state m' = DISCONNECTED
     ∧ isOpen (_serial m') = false
     ∧ emitted m' = emitted m ++ [disconnected]
     ∧ ∀ data, send data m' = m').
Proof.
  split; [vm_compute; repeat split|].
  apply (port_removed_is_disconnect_or_queue_removal (env_open (Some (b "OK"))) COM_A
           (run (env_open (Some (b "OK"))) [Call_auto_connect None None [COM_A]]
                (__init__ blocking_OK)));
    vm_compute; reflexivity.
Defined.

(** C8 as stated fails.  The manager is CONNECTED on COM_A and COM_B was
    added since.  When COM_A is removed, [disconnect()] goes on to COM_B:
    the manager ends CONNECTED on COM_B, and a [send()] that follows writes
    to it. *)
Lemma port_removed_with_candidate_queued_reconnects :
  let env := env_open (Some (b "OK")) in
  let m := run env [Call_auto_connect None None [COM_A]; Sig_port_added COM_B]
               (__init__ blocking_OK) in
  let m' := PortMonitor_port_removed env COM_A m in
  (_state m = CONNECTED ∧ isOpen (_serial m) = true
   ∧ portName (serial_port (_serial m)) = "COM_A"
   ∧ _available_ports m = [COM_B])
  ∧ _state m' = CONNECTED
  ∧ emitted m' = [connected "COM_A"; disconnected; connected "COM_B"]
  ∧ tx (_serial (send (b "x") m')) = tx (_serial m') ++ [b "x"]
  ∧ send (b "x") m' ≠ m'.
Proof.
  vm_compute. repeat split. discriminate.
Qed.

(** ** [auto_connect] while identifying or connected *)

(** C9 (amended). An [auto_connect] call made while the manager is
    IDENTIFYING or CONNECTED leaves the state, the port (open or closed, and
    everything else about it) and the identifier as they are and emits
    nothing; the filters and the candidate queue are replaced by the ones of
    the call. *)
Theorem auto_connect_while_busy_keeps_state_and_port
  (env : Env) (vid pid : option Z) (availablePorts : list QSerialPortInfo)
  (m : SerialManager) :
  _state m = IDENTIFYING ∨ _state m = CONNECTED →
  let m' := auto_connect env vid pid availablePorts m in
  _state m' = _state m
  ∧ isOpen (_serial m') = isOpen (_serial m)
  ∧ _serial m' = _serial m
  ∧ _identifier m' = _identifier m
  ∧ emitted m' = emitted m
  ∧ _vid m' = vid ∧ _pid m' = pid ∧ _available_ports m' = availablePorts.
Proof.
  intros Hst m'. subst m'. unfold auto_connect.
  rewrite _try_next_port_unfold. unfold _try_next_port_k. cbn.
  rewrite (bool_decide_eq_true_2 (_state m ≠ DISCONNECTED))
    by (destruct Hst as [-> | ->]; done).
  rewrite orb_true_r. done.
Qed.

Lemma auto_connect_while_busy_keeps_state_and_port_witness :
  let env := env_open (Some (b "OK")) in
  let m := run env [Call_auto_connect None None [COM_A]] (__init__ blocking_OK) in
  (_state m = IDENTIFYING ∨ _state m = CONNECTED)
  ∧ (let m' := auto_connect env (Some 1%Z) None [COM_B] m in
     _state m' = _state m
     ∧ isOpen (_serial m') = isOpen (_serial m)
     ∧ _serial m' = _serial m
     ∧ _identifier m' = _identifier m
     ∧ emitted m' = emitted m
     ∧ _vid m' = Some 1%Z ∧ _pid m' = None ∧ _available_ports m' = [COM_B]).
Proof.
  split; [right; vm_compute; reflexivity|].
  apply (auto_connect_while_busy_keeps_state_and_port (env_open (Some (b "OK")))
           (Some 1%Z) None [COM_B]
           (run (env_open (Some (b "OK"))) [Call_auto_connect None None [COM_A]]
                (__init__ blocking_OK))).
  right. vm_compute. reflexivity.
Defined.

(** C9 as stated fails on "only".  The call also connects [_on_port_added]
    to [port_added] once more.  After an [auto_connect] made while
    CONNECTED, one port added signal puts the port in the queue twice; had
    the call only replaced the filters and the queue, it would be there
    once. *)
Lemma auto_connect_while_connected_subscribes_again :
  let env := env_open (Some (b "OK")) in
  let m := run env [Call_auto_connect None None [COM_A]] (__init__ blocking_OK) in
  let only_replaced := with_available_ports [] (with_filters None None m) in
  _state m = CONNECTED
  ∧ auto_connect env None None [] m ≠ only_replaced
  ∧ _available_ports (PortMonitor_port_added env COM_B (auto_connect env None None [] m))
    = [COM_B; COM_B]
  ∧ _available_ports (PortMonitor_port_added env COM_B only_replaced) = [COM_B].
Proof.
  vm_compute. repeat split. discriminate.
Qed.

(** ** The candidate queue and the state *)

(** C6 (amended). A successful identification empties the queue.  In a
    state other than DISCONNECTED, a port added signal only appends the port
    to the queue, which is then not empty, and the loop over the candidates
    takes nothing from it. *)
Theorem port_added_while_busy_only_appends
  (env : Env) (port_info : QSerialPortInfo) (m : SerialManager) :
  _state m ≠ DISCONNECTED →
  _on_port_added env port_info m
  = with_available_ports (_available_ports m ++ [port_info]) m
  ∧ _available_ports (_on_port_added env port_info m) ≠ []
  ∧ _state (_on_port_added env port_info m) = _state m
  ∧ _try_next_port env m = m
  ∧ _available_ports (_on_identified m) = [].
Proof.
  intros Hst. unfold _on_port_added. cbn.
  rewrite (bool_decide_eq_false_2 (_state m = DISCONNECTED)) by done. cbn.
  split; [done|]. split; [by destruct (_available_ports m)|]. split; [done|].
  split; [|done].
  rewrite _try_next_port_unfold. unfold _try_next_port_k.
  rewrite (bool_decide_eq_true_2 (_state m ≠ DISCONNECTED)) by done.
  by rewrite orb_true_r.
Qed.

Lemma port_added_while_busy_only_appends_witness :
  let env := env_open (Some (b "OK")) in
  let m := run env [Call_auto_connect None None [COM_A]] (__init__ blocking_OK) in
  _state m ≠ DISCONNECTED
  ∧ _on_port_added env COM_B m
    = with_available_ports (_available_ports m ++ [COM_B]) m
  ∧ _available_ports (_on_port_added env COM_B m) ≠ []
  ∧ _state (_on_port_added env COM_B m) = _state m
  ∧ _try_next_port env m = m
  ∧ _available_ports (_on_identified m) = [].
Proof.
  split; [vm_compute; discriminate|].
  apply (port_added_while_busy_only_appends (env_open (Some (b "OK"))) COM_B
           (run (env_open (Some (b "OK"))) [Call_auto_connect None None [COM_A]]
                (__init__ blocking_OK))).
  vm_compute. discriminate.
Defined.

(** C6 as stated fails.  After a port added signal received while CONNECTED
    the queue holds the port, and after [auto_connect] found two ports the
    second one stays in the queue while the first is being identified. *)
Lemma queue_not_empty_while_connected_or_identifying :
  let env := env_open (Some (b "OK")) in
  let m_connected := run env [Call_auto_connect None None [COM_A]; Sig_port_added COM_B]
                         (__init__ blocking_OK) in
  let m_identifying := run env [Call_auto_connect None None [COM_A; COM_B]]
                           (__init__ simple_OK) in
  (_state m_connected = CONNECTED ∧ _available_ports m_connected = [COM_B])
  ∧ (_state m_identifying = IDENTIFYING ∧ _available_ports m_identifying = [COM_B]).
Proof. vm_compute. repeat split. Qed.

(** ** One signal for each start, and [disconnect] during an attempt *)

(** A [readyRead] emission that finds only slots of the manager does not
    reach the identifier. *)
Lemma manager_slots_keep_identifier env table m :
  ident_slots table = 0 →
  _identifier (foldl (call_ready_slot env) m table) = _identifier m.
Proof.
  revert m. induction table as [|slot table IH]; intros m Hn; [done|].
  destruct slot.
  - cbn [foldl]. rewrite IH.
    + unfold call_ready_slot. by case_bool_decide.
    + unfold ident_slots in *. by rewrite filter_cons_False in Hn.
  - unfold ident_slots in Hn. rewrite filter_cons_True in Hn by done. done.
Qed.

(** C4 (amended).  A blocking identifier emits one signal inside [start].
    A non-blocking one emits none inside [start], which arms the timer and
    connects the identifier to [readyRead]; with the attempt in flight
    (timer armed, connected once), whichever of the time-out and the data
    comes first makes it emit one signal, the timer being stopped or having
    fired and the connection removed before the emission, and with the
    timer stopped and no connection neither of the two reaches it again.
    A [disconnect()] of the manager during the attempt leaves the timer
    armed and the connection in place, and the time-out that follows emits
    failed. *)
Theorem identifier_emits_once_and_disconnect_leaves_it_armed
  (env : Env) (m : SerialManager) :
  timer_active (_identifier m) = true →
  ident_slots (readyRead (_serial m)) = 1 →
  _state m = IDENTIFYING →
  (∀ m0, ∃ sig m1,
      BlockingIdentifier_start env m0 = emit_signal env sig m1
      ∧ signalled (_identifier m1) = signalled (_identifier m0))
  ∧ (∀ m0, signalled (_identifier (SimpleIdentifier_start m0)) = signalled (_identifier m0)
           ∧ timer_active (_identifier (SimpleIdentifier_start m0)) = true
           ∧ 1 ≤ ident_slots (readyRead (_serial (SimpleIdentifier_start m0))))
  ∧ (∃ m1, QTimer_timeout env m = emit_signal env failed m1
           ∧ signalled (_identifier m1) = signalled (_identifier m)
           ∧ timer_active (_identifier m1) = false
           ∧ ident_slots (readyRead (_serial m1)) = 0)
  ∧ (∃ sig m1, SimpleIdentifier_on_ready_read env m = emit_signal env sig m1
               ∧ signalled (_identifier m1) = signalled (_identifier m)
               ∧ timer_active (_identifier m1) = false
               ∧ ident_slots (readyRead (_serial m1)) = 0)
  ∧ (∀ m0, timer_active (_identifier m0) = false → QTimer_timeout env m0 = m0)
  ∧ (∀ m0 data, ident_slots (readyRead (_serial m0)) = 0 →
       _identifier (QSerialPort_readyRead env data m0) = _identifier m0)
  ∧ (timer_active (_identifier (disconnect env m)) = true
     ∧ ident_slots (readyRead (_serial (disconnect env m))) = 1
     ∧ ∃ m1, QTimer_timeout env (disconnect env m) = emit_signal env failed m1
             ∧ signalled (_identifier m1) = signalled (_identifier m)).
Proof.
  intros Ht Hs Hst. repeat apply conj.
  - intros m0. unfold BlockingIdentifier_start, BlockingIdentifier_start_k. cbn.
    destruct (wait_result env _); [case_match|];
      match goal with |- ∃ sig m1, emit_signal_k _ ?s ?mm = _ ∧ _ => exists s, mm end;
      (split; [reflexivity|done]).
  - intros m0. unfold SimpleIdentifier_start. cbn.
    rewrite ident_slots_connect_identifier. repeat split. lia.
  - unfold QTimer_timeout. rewrite Ht.
    unfold SimpleIdentifier_on_timeout, SimpleIdentifier_on_timeout_k.
    match goal with |- ∃ m1, emit_signal_k _ _ ?mm = _ ∧ _ => exists mm end.
    split; [reflexivity|]. cbn.
    rewrite ident_slots_disconnect_identifier. done.
  - unfold SimpleIdentifier_on_ready_read, SimpleIdentifier_on_ready_read_k. cbn.
    case_match;
      match goal with |- ∃ sig m1, emit_signal_k _ ?s ?mm = _ ∧ _ => exists s, mm end;
      (split; [reflexivity|]); cbn;
      rewrite ident_slots_disconnect_identifier; done.
  - intros m0 Hoff. unfold QTimer_timeout. by rewrite Hoff.
  - intros m0 data H0. unfold QSerialPort_readyRead.
    destruct (isOpen (_serial m0)); [|done].
    by rewrite manager_slots_keep_identifier.
  - rewrite disconnect_identifying_eq by done. by destruct (isOpen (_serial m)).
  - rewrite disconnect_identifying_eq by done. by destruct (isOpen (_serial m)).
  - rewrite disconnect_identifying_eq by done.
    unfold QTimer_timeout.
    assert (Ht' : timer_active (_identifier (with_state DISCONNECTED
              (if isOpen (_serial m) then on_serial close m else m))) = true)
      by (by destruct (isOpen (_serial m))).
    rewrite Ht'. unfold SimpleIdentifier_on_timeout, SimpleIdentifier_on_timeout_k.
    match goal with |- ∃ m1, emit_signal_k _ _ ?mm = _ ∧ _ => exists mm end.
    split; [reflexivity|]. by destruct (isOpen (_serial m)).
Qed.

Lemma identifier_emits_once_and_disconnect_leaves_it_armed_witness :
  let env := env_open None in
  let m := run env [Call_auto_connect None None [COM_A]] (__init__ simple_OK) in
  (timer_active (_identifier m) = true
   ∧ ident_slots (readyRead (_serial m)) = 1
   ∧ _state m = IDENTIFYING)
  ∧ timer_active (_identifier (disconnect env m)) = true
  ∧ ident_slots (readyRead (_serial (disconnect env m))) = 1
  ∧ ∃ m1, QTimer_timeout env (disconnect env m) = emit_signal env failed m1
          ∧ signalled (_identifier m1) = signalled (_identifier m).
Proof.
  split; [vm_compute; repeat split|].
  apply (identifier_emits_once_and_disconnect_leaves_it_armed (env_open None)
           (run (env_open None) [Call_auto_connect None None [COM_A]]
                (__init__ simple_OK)));
    vm_compute; reflexivity.
Defined.

(** C4 as stated fails.  The non-blocking identifier is in flight on COM_A
    when [disconnect()] is called.  Its timer stays armed and it stays
    connected to [readyRead]; when the time runs out it emits failed, and
    the manager, DISCONNECTED by then, emits a disconnected event for it. *)
Lemma disconnect_does_not_stop_the_identifier :
  let env := env_open None in
  let m := run env [Call_auto_connect None None [COM_A]; Call_disconnect]
               (__init__ simple_OK) in
  let m' := step env Sig_timeout m in
  (_state m = DISCONNECTED
   ∧ emitted m = []
   ∧ signalled (_identifier m) = []
   ∧ timer_active (_identifier m) = true
   ∧ readyRead (_serial m) = [Identifier_on_ready_read])
  ∧ signalled (_identifier m') = [failed]
  ∧ emitted m' = [disconnected].
Proof. vm_compute. repeat split. Qed.

(** ** The scenarios of the specification, run on the model *)

(** Scenario A: two ports, a vendor filter that neither has: the queue is
    used up, no port is opened, the manager stays DISCONNECTED. *)
Example scenario_A :
  let m := run (env_open None) [Call_auto_connect (Some 7%Z) None [COM_A; COM_B]]
               (__init__ blocking_OK) in
  _state m = DISCONNECTED ∧ _available_ports m = []
  ∧ opens (_serial m) = 0 ∧ emitted m = [].
Proof. vm_compute. repeat split. Qed.

(** Scenario B: one port, the device answers [b"OK\n"]. *)
Example scenario_B :
  let m := run (env_open (Some (b "OK" ++ [x0a]))) [Call_auto_connect None None [COM_A]]
               (__init__ blocking_OK) in
  _state m = CONNECTED ∧ emitted m = [connected "COM_A"].
Proof. vm_compute. repeat split. Qed.

(** Scenario C: as B, the device answers [b"NO"]. *)
Example scenario_C :
  let m := run (env_open (Some (b "NO"))) [Call_auto_connect None None [COM_A]]
               (__init__ blocking_OK) in
  _state m = DISCONNECTED ∧ isOpen (_serial m) = false
  ∧ signalled (_identifier m) = [failed] ∧ emitted m = [].
Proof. vm_compute. repeat split. Qed.

(** Scenario D: CONNECTED, the open port is removed, then [send]. *)
Example scenario_D :
  let env := env_open (Some (b "OK")) in
  let m := run env [Call_auto_connect None None [COM_A]; Sig_port_removed COM_A]
               (__init__ blocking_OK) in
  _state m = DISCONNECTED
  ∧ emitted m = [connected "COM_A"; disconnected]
  ∧ send (b "x") m = m.
Proof. vm_compute. repeat split. Qed.

(** Scenario E: the non-blocking identifier times out before any data;
    data sent afterwards finds the port closed and the identifier
    disconnected from [readyRead]. *)
Example scenario_E :
  let env := env_open None in
  let m := run env [Call_auto_connect None None [COM_A]; Sig_timeout;
                    Sig_readyRead (b "OK")] (__init__ simple_OK) in
  signalled (_identifier m) = [failed]
  ∧ _state m = DISCONNECTED
  ∧ readyRead (_serial m) = [].
Proof. vm_compute. repeat split. Qed.

(** * Further properties *)

(** ** The port monitor *)

Lemma scan_signals_eq (known : gset string) (ports : list QSerialPortInfo) :
  (PortMonitor._scan known ports).2
  = PortMonitor.port_added <$> filter (λ p, portName p ∉ known) ports.
Proof.
  unfold PortMonitor._scan. cbn [snd].
  by rewrite scan_eliminados_nil, app_nil_r.
Qed.

(** X1. A tick emits one port added signal for each port of the snapshot
    whose name was not remembered, in the order of the snapshot, and no
    other signal. *)
Theorem scan_signals_are_the_new_ports
  (known : gset string) (ports : list QSerialPortInfo) :
  (PortMonitor._scan known ports).2
  = PortMonitor.port_added <$> filter (λ p, portName p ∉ known) ports.
Proof. apply scan_signals_eq. Qed.

(** X2. A second tick that finds the same ports emits nothing, and so does
    the first tick after construction when the ports did not change. *)
Theorem scan_same_snapshot_is_silent
  (known : gset string) (ports : list QSerialPortInfo) :
  (PortMonitor._scan (PortMonitor._scan known ports).1 ports).2 = []
  ∧ (PortMonitor._scan (PortMonitor.init ports) ports).2 = [].
Proof.
  assert (H : (PortMonitor._scan (PortMonitor.names ports) ports).2 = []).
  { rewrite scan_signals_eq. rewrite filter_none; [done|].
    intros p Hp Hn. apply Hn. unfold PortMonitor.names.
    apply elem_of_list_to_set, list_elem_of_fmap. by exists p. }
  split; exact H.
Qed.

(** X3. A port that was in the previous snapshot is not reported as added by
    the next tick, whatever was remembered before. *)
Theorem scan_reports_no_port_of_the_previous_snapshot
  (known : gset string) (ports1 ports2 : list QSerialPortInfo) (p : QSerialPortInfo) :
  portName p ∈ portName <$> ports1 →
  PortMonitor.port_added p ∉ (PortMonitor._scan (PortMonitor._scan known ports1).1 ports2).2.
Proof.
  intros Hin Hsig. rewrite scan_signals_eq in Hsig.
  apply list_elem_of_fmap in Hsig as (q & Heq & Hq). simplify_eq.
  apply list_elem_of_filter in Hq as [Hn _]. apply Hn.
  cbn. unfold PortMonitor.names. by apply elem_of_list_to_set.
Qed.

Lemma scan_reports_no_port_of_the_previous_snapshot_witness :
  portName COM_A ∈ portName <$> [COM_A]
  ∧ PortMonitor.port_added COM_A
    ∉ (PortMonitor._scan (PortMonitor._scan ∅ [COM_A]).1 [COM_A; COM_B]).2.
Proof.
  split; [left|].
  apply (scan_reports_no_port_of_the_previous_snapshot ∅ [COM_A] [COM_A; COM_B] COM_A).
  left.
Defined.

(** ** Before the first [auto_connect] *)

Lemma untouched_step env op m :
  not_auto_connect op → untouched m → untouched (step env op m).
Proof.
  intros Hop (Ho & Hst & Hn & Htx & Hq & Hsig & Hc & Ht).
  assert (Hd : disconnect env m = emit disconnected (with_state DISCONNECTED m)).
  { rewrite disconnect_eq, Ho. cbn. rewrite Hst. cbn.
    by rewrite _try_next_port_nil. }
  assert (Hm : untouched m) by (unfold untouched; done).
  destruct op; cbn [step]; try done.
  - rewrite Hd. by unfold untouched.
  - unfold send. by rewrite Ho.
  - unfold QSerialPort_readyRead. by rewrite Ho.
  - unfold QTimer_timeout. by rewrite Ht.
  - unfold QSerialPort_errorOccurred, _on_error. case_bool_decide.
    + rewrite disconnect_eq. cbn. rewrite Ho, Hst. cbn.
      rewrite _try_next_port_nil by exact Hq.
      repeat case_bool_decide; unfold untouched; cbn; done.
    + by unfold untouched.
  - unfold PortMonitor_port_added. by rewrite Hc.
  - unfold PortMonitor_port_removed, _handle_port_removed. rewrite Ho. cbn.
    unfold untouched. cbn. by rewrite Hq.
Qed.

Lemma untouched_run env ops m :
  Forall not_auto_connect ops → untouched m → untouched (run env ops m).
Proof.
  intros Hops. revert m. induction Hops as [|op ops Hop Hops IH]; intros m Hm; [done|].
  cbn. by apply IH, untouched_step.
Qed.

(** X4. As long as [auto_connect] was not called, nothing that happens makes
    the manager open a port or write to one: it stays DISCONNECTED with an
    empty queue, and port added signals are not even received. *)
Theorem no_port_opened_before_auto_connect
  (env : Env) (c : IdentifierClass) (id_command expected_response : bytes)
  (timeout_ms : Z) (ops : list Op) :
  Forall not_auto_connect ops →
  let m := run env ops (__init__ (new_identifier c id_command expected_response timeout_ms)) in
  isOpen (_serial m) = false ∧ _state m = DISCONNECTED
  ∧ opens (_serial m) = 0 ∧ tx (_serial m) = []
  ∧ _available_ports m = [] ∧ signalled (_identifier m) = [].
Proof.
  intros Hops m.
  enough (untouched m) as (?&?&?&?&?&?&_) by done.
  subst m. apply untouched_run; [done|]. by cbn.
Qed.

Lemma no_port_opened_before_auto_connect_witness :
  let env := env_open (Some (b "OK")) in
  let ops := [Sig_port_added COM_A; Call_disconnect; Call_send (b "x");
              Sig_errorOccurred OtherError "lost"] in
  Forall not_auto_connect ops
  ∧ (let m := run env ops (__init__ (new_identifier BlockingIdentifier (b "ID?") (b "OK") 500)) in
     isOpen (_serial m) = false ∧ _state m = DISCONNECTED
     ∧ opens (_serial m) = 0 ∧ tx (_serial m) = []
     ∧ _available_ports m = [] ∧ signalled (_identifier m) = []).
Proof.
  assert (H : Forall not_auto_connect
                [Sig_port_added COM_A; Call_disconnect; Call_send (b "x");
                 Sig_errorOccurred OtherError "lost"])
    by (repeat constructor).
  split; [exact H|].
  exact (no_port_opened_before_auto_connect (env_open (Some (b "OK")))
           BlockingIdentifier (b "ID?") (b "OK") 500 _ H).
Defined.

(** ** [send] *)


(** ** Transport errors *)

(** X6. [NoError] is ignored.  Any other error ends with an error event
    carrying the error string of the port, prefixed with "Identification
    failed: " exactly when the manager was IDENTIFYING; in that state the
    event is the only one, and the manager ends DISCONNECTED with the port
    closed and the queue untouched. *)
Theorem transport_error_is_reported_last
  (env : Env) (error : SerialPortError) (msg : string) (m : SerialManager) :
  QSerialPort_errorOccurred env NoError msg m = on_serial (with_errorString msg) m
  ∧ (error ≠ NoError →
     last (emitted (QSerialPort_errorOccurred env error msg m))
     = Some (error_occurred (if decide (_state m = IDENTIFYING)
                              then "Identification failed: " +:+ msg else msg))
     ∧ (_state m = IDENTIFYING →
        QSerialPort_errorOccurred env error msg m
        = emit (error_occurred ("Identification failed: " +:+ msg))
            (with_state DISCONNECTED
               (if isOpen (_serial m)
                then on_serial close (on_serial (with_errorString msg) m)
                else on_serial (with_errorString msg) m)))).
Proof.
  unfold QSerialPort_errorOccurred, _on_error. split; [done|].
  intros Herr. rewrite (bool_decide_eq_true_2 _ Herr). cbn. split.
  - rewrite last_snoc. do 2 f_equal.
    destruct (decide (_state m = IDENTIFYING)) as [Hst|Hst].
    + by rewrite bool_decide_eq_true_2.
    + by rewrite bool_decide_eq_false_2.
  - intros Hst. rewrite disconnect_identifying_eq by done.
    rewrite bool_decide_eq_true_2 by done. cbn. by destruct (isOpen (_serial m)).
Qed.

Lemma transport_error_is_reported_last_witness :
  let env := env_open None in
  let m := run env [Call_auto_connect None None [COM_A]] (__init__ simple_OK) in
  (OtherError ≠ NoError ∧ _state m = IDENTIFYING)
  ∧ emitted (QSerialPort_errorOccurred env OtherError "Resource error" m)
    = [error_occurred "Identification failed: Resource error"]
  ∧ _state (QSerialPort_errorOccurred env OtherError "Resource error" m) = DISCONNECTED.
Proof.
  split; [split; [discriminate|vm_compute; reflexivity]|].
  destruct (transport_error_is_reported_last (env_open None) OtherError "Resource error"
              (run (env_open None) [Call_auto_connect None None [COM_A]]
                   (__init__ simple_OK))) as [_ H].
  destruct H as [_ H]; [discriminate|].
  rewrite H by (vm_compute; reflexivity).
  vm_compute. split; reflexivity.
Defined.

(** ** Candidates that are filtered out *)

Lemma _port_matches_filters_eq m m' p :
  _vid m' = _vid m → _pid m' = _pid m →
  _port_matches_filters m' p = _port_matches_filters m p.
Proof. intros Hv Hp. unfold _port_matches_filters. by rewrite Hv, Hp. Qed.

(** X8. [auto_connect] on a DISCONNECTED manager with ports none of which
    passes the filters: no port is opened, nothing is written, no event is
    emitted, and the manager stays DISCONNECTED with an empty queue. *)
Theorem auto_connect_with_no_matching_port_does_nothing
  (env : Env) (vid pid : option Z) (availablePorts : list QSerialPortInfo)
  (m : SerialManager) :
  isOpen (_serial m) = false → _state m = DISCONNECTED →
  Forall (λ p, filter_ok vid (vendorIdentifier p)
               && filter_ok pid (productIdentifier p) = false) availablePorts →
  let m' := auto_connect env vid pid availablePorts m in
  _state m' = DISCONNECTED
  ∧ _serial m' = _serial m
  ∧ _available_ports m' = []
  ∧ emitted m' = emitted m
  ∧ _identifier m' = _identifier m.
Proof.
  intros Ho Hst Hnone m'. subst m'. unfold auto_connect.
  rewrite _try_next_port_unfold. unfold _try_next_port_k. cbn.
  rewrite Ho, bool_decide_eq_false_2 by (intros H; by apply H). cbn.
  set (m0 := with_port_added_conns _ _).
  assert (Hm0 : _state m0 = DISCONNECTED ∧ _serial m0 = _serial m
                ∧ emitted m0 = emitted m ∧ _identifier m0 = _identifier m
                ∧ _vid m0 = vid ∧ _pid m0 = pid
                ∧ (availablePorts = [] → _available_ports m0 = [])) by done.
  clearbody m0. revert m0 Hm0.
  induction Hnone as [|p rest Hp Hrest IH]; intros m0 (H1 & H2 & H3 & H4 & H5 & H6 & H7).
  { cbn. rewrite H7 by done. done. }
  cbn [while_available_ports_k].
  assert (Hf : _port_matches_filters (with_available_ports rest m0) p = false).
  { unfold _port_matches_filters. cbn. rewrite H5, H6.
    destruct (filter_ok vid _); [|done]. by destruct (filter_ok pid _). }
  rewrite Hf. cbn [negb]. apply IH. repeat split; try done.
Qed.

Lemma auto_connect_with_no_matching_port_does_nothing_witness :
  let env := env_open None in
  let m := __init__ blocking_OK in
  (isOpen (_serial m) = false ∧ _state m = DISCONNECTED
   ∧ Forall (λ p, filter_ok (Some 7%Z) (vendorIdentifier p)
                  && filter_ok None (productIdentifier p) = false) [COM_A; COM_B])
  ∧ (let m' := auto_connect env (Some 7%Z) None [COM_A; COM_B] m in
     _state m' = DISCONNECTED
     ∧ _serial m' = _serial m
     ∧ _available_ports m' = []
     ∧ emitted m' = emitted m
     ∧ _identifier m' = _identifier m).
Proof.
  assert (H : Forall (λ p, filter_ok (Some 7%Z) (vendorIdentifier p)
                           && filter_ok None (productIdentifier p) = false)
                [COM_A; COM_B]) by (repeat constructor).
  split; [split; [reflexivity|split; [reflexivity|exact H]]|].
  exact (auto_connect_with_no_matching_port_does_nothing (env_open None)
           (Some 7%Z) None [COM_A; COM_B] (__init__ blocking_OK) eq_refl eq_refl H).
Defined.

(** ** A first identification, from [auto_connect] to its outcome *)

Arguments Nat.iter : simpl never.

(** An emission that finds one connection is one call of the slot. *)
Lemma emit_identified_once k m :
  identified_conns (_identifier m) = 1 →
  emit_signal_k k identified m = _on_identified (signal_recorded identified m).
Proof.
  intros H1. unfold emit_signal_k.
  change (on_identifier _ m) with (signal_recorded identified m).
  change (identified_conns (_identifier (signal_recorded identified m)))
    with (identified_conns (_identifier m)).
  rewrite H1, iter_S. change (Nat.iter 0 ?f ?x) with x.
  by rewrite bool_decide_eq_true_2 by (cbn; lia).
Qed.

Lemma emit_failed_once k m :
  failed_conns (_identifier m) = 1 →
  emit_signal_k k failed m = disconnect_k k (signal_recorded failed m).
Proof.
  intros H1. unfold emit_signal_k.
  change (on_identifier _ m) with (signal_recorded failed m).
  change (failed_conns (_identifier (signal_recorded failed m)))
    with (failed_conns (_identifier m)).
  rewrite H1, iter_S. change (Nat.iter 0 ?f ?x) with x.
  by rewrite bool_decide_eq_true_2 by (cbn; lia).
Qed.

(** X9. [auto_connect] on a DISCONNECTED manager with a blocking identifier
    that has no attempt behind it (or whose last attempt succeeded), the
    first port passing the filters and opening, and the device answering
    within the time allowed.  When the answer, stripped of whitespace, is
    the expected response the manager ends CONNECTED on that port, with one
    connected event carrying its name and an empty queue; with any other
    answer it ends DISCONNECTED with the port closed, no event, and the
    other ports still queued. *)
Theorem blocking_auto_connect_outcome
  (env : Env) (vid pid : option Z) (p : QSerialPortInfo)
  (rest : list QSerialPortInfo) (data : bytes) (m : SerialManager) :
  isOpen (_serial m) = false → _state m = DISCONNECTED →
  class (_identifier m) = BlockingIdentifier →
  identified_conns (_identifier m) = 0 → failed_conns (_identifier m) = 0 →
  filter_ok vid (vendorIdentifier p) = true →
  filter_ok pid (productIdentifier p) = true →
  open_result env (opens (_serial m)) p = None →
  wait_result env (S (opens (_serial m))) = Some data →
  let m' := auto_connect env vid pid (p :: rest) m in
  (strip data = _expected_response (_identifier m) →
   _state m' = CONNECTED ∧ isOpen (_serial m') = true
   ∧ serial_port (_serial m') = p ∧ _available_ports m' = []
   ∧ emitted m' = emitted m ++ [connected (portName p)]
   ∧ signalled (_identifier m') = signalled (_identifier m) ++ [identified])
  ∧ (strip data ≠ _expected_response (_identifier m) →
     _state m' = DISCONNECTED ∧ isOpen (_serial m') = false
     ∧ _available_ports m' = rest
     ∧ emitted m' = emitted m
     ∧ signalled (_identifier m') = signalled (_identifier m) ++ [failed]).
Proof.
  intros Ho Hst Hcl Hi Hf Hv Hp Hopen Hw m'. subst m'.
  unfold auto_connect. rewrite _try_next_port_unfold. unfold _try_next_port_k.
  cbn. rewrite Ho, bool_decide_eq_false_2 by (intros H; by apply H).
  cbn [orb while_available_ports_k].
  unfold _port_matches_filters. cbn. rewrite Hv, Hp. cbn.
  unfold open. cbn. rewrite Hopen. cbn.
  unfold _identify_device_k, start_k. cbn. rewrite Hcl.
  unfold BlockingIdentifier_start_k. cbn. rewrite Hw.
  unfold response_ok. cbn. case_bool_decide as Hr.
  - rewrite emit_identified_once by (cbn; by rewrite Hi).
    unfold _on_identified. cbn. split; [done|]. intros Hn. by destruct Hn.
  - rewrite emit_failed_once by (cbn; by rewrite Hf).
    unfold disconnect_k. cbn. split; [done|]. intros _. done.
Qed.

Lemma blocking_auto_connect_outcome_witness :
  let env := env_open (Some (b "OK" ++ [x0a])) in
  let m := __init__ blocking_OK in
  (isOpen (_serial m) = false ∧ _state m = DISCONNECTED
   ∧ class (_identifier m) = BlockingIdentifier
   ∧ identified_conns (_identifier m) = 0 ∧ failed_conns (_identifier m) = 0
   ∧ filter_ok None (vendorIdentifier COM_A) = true
   ∧ filter_ok None (productIdentifier COM_A) = true
   ∧ open_result env (opens (_serial m)) COM_A = None
   ∧ wait_result env (S (opens (_serial m))) = Some (b "OK" ++ [x0a])
   ∧ strip (b "OK" ++ [x0a]) = _expected_response (_identifier m))
  ∧ _state (auto_connect env None None [COM_A; COM_B] m) = CONNECTED
  ∧ emitted (auto_connect env None None [COM_A; COM_B] m) = [connected "COM_A"].
Proof.
  split; [repeat split|].
  destruct (blocking_auto_connect_outcome (env_open (Some (b "OK" ++ [x0a])))
              None None COM_A [COM_B] (b "OK" ++ [x0a]) (__init__ blocking_OK)
              eq_refl eq_refl eq_refl eq_refl eq_refl eq_refl eq_refl eq_refl eq_refl)
    as [Hyes _].
  destruct (Hyes eq_refl) as (H1 & _ & _ & _ & H5 & _). split; [exact H1|exact H5].
Defined.

(** X10. A first attempt of the non-blocking identifier in flight: the manager
    is IDENTIFYING, only the identifier listens to the port, the timer runs.
    Data that arrives goes to the identifier and is never forwarded as a
    data received event: if what was received, stripped of whitespace, is
    the expected response the manager ends CONNECTED with one connected
    event, listening to the port itself; otherwise, and when the time runs
    out first, it ends DISCONNECTED with the port closed and no event at
    all.  In each case the timer is stopped and the identifier no longer
    listens. *)
Theorem simple_identifier_outcome (env : Env) (data : bytes) (m : SerialManager) :
  isOpen (_serial m) = true → _state m = IDENTIFYING →
  readyRead (_serial m) = [Identifier_on_ready_read] →
  timer_active (_identifier m) = true →
  identified_conns (_identifier m) = 1 → failed_conns (_identifier m) = 1 →
  let m' := QSerialPort_readyRead env data m in
  let m'' := QTimer_timeout env m in
  let ok := strip (rx (_serial m) ++ data) = _expected_response (_identifier m) in
  (ok →
   _state m' = CONNECTED ∧ isOpen (_serial m') = true
   ∧ _available_ports m' = []
   ∧ emitted m' = emitted m ++ [connected (portName (serial_port (_serial m)))]
   ∧ readyRead (_serial m') = [Manager_on_ready_read]
   ∧ timer_active (_identifier m') = false
   ∧ signalled (_identifier m') = signalled (_identifier m) ++ [identified])
  ∧ (¬ ok →
     _state m' = DISCONNECTED ∧ isOpen (_serial m') = false
     ∧ _available_ports m' = _available_ports m
     ∧ emitted m' = emitted m
     ∧ readyRead (_serial m') = []
     ∧ timer_active (_identifier m') = false
     ∧ signalled (_identifier m') = signalled (_identifier m) ++ [failed])
  ∧ (_state m'' = DISCONNECTED ∧ isOpen (_serial m'') = false
     ∧ _available_ports m'' = _available_ports m
     ∧ emitted m'' = emitted m
     ∧ readyRead (_serial m'') = []
     ∧ timer_active (_identifier m'') = false
     ∧ signalled (_identifier m'') = signalled (_identifier m) ++ [failed]).
Proof.
  intros Ho Hst Hrr Ht Hi Hf m' m'' ok. subst m' m''.
  unfold QSerialPort_readyRead, QTimer_timeout. rewrite Ho, Ht. cbn.
  rewrite Hrr. cbn [foldl]. unfold call_ready_slot. cbn. rewrite Hrr.
  rewrite bool_decide_eq_true_2 by left.
  unfold run_ready_slot, SimpleIdentifier_on_ready_read,
    SimpleIdentifier_on_ready_read_k, SimpleIdentifier_on_timeout,
    SimpleIdentifier_on_timeout_k. cbn. rewrite Hrr. cbn.
  rewrite (emit_failed_once _ (on_serial _ (on_identifier _ m)))
    by (cbn; by rewrite Hf).
  unfold response_ok. cbn. split; [|split].
  - intros Hok. rewrite bool_decide_eq_true_2 by exact Hok.
    rewrite emit_identified_once by (cbn; by rewrite Hi).
    unfold _on_identified. cbn. rewrite ?decide_True by done.
    repeat split. exact Ho.
  - intros Hno. rewrite bool_decide_eq_false_2 by exact Hno.
    rewrite emit_failed_once by (cbn; by rewrite Hf).
    unfold disconnect_k. cbn. rewrite Ho. cbn. rewrite Hst. cbn.
    rewrite ?decide_True by done.
    rewrite (bool_decide_eq_false_2 (IDENTIFYING ≠ IDENTIFYING))
      by (intros H; by apply H).
    cbn. repeat split.
  - unfold disconnect_k. cbn. rewrite Ho. cbn. rewrite Hst. cbn.
    rewrite ?decide_True by done.
    rewrite (bool_decide_eq_false_2 (IDENTIFYING ≠ IDENTIFYING))
      by (intros H; by apply H).
    cbn. repeat split. by rewrite Hrr.
Qed.

Lemma simple_identifier_outcome_witness :
  let env := env_open None in
  let m := run env [Call_auto_connect None None [COM_A; COM_B]] (__init__ simple_OK) in
  (isOpen (_serial m) = true ∧ _state m = IDENTIFYING
   ∧ readyRead (_serial m) = [Identifier_on_ready_read]
   ∧ timer_active (_identifier m) = true
   ∧ identified_conns (_identifier m) = 1 ∧ failed_conns (_identifier m) = 1
   ∧ strip (rx (_serial m) ++ (b "OK" ++ [x0d; x0a])) = _expected_response (_identifier m))
  ∧ _state (QSerialPort_readyRead env (b "OK" ++ [x0d; x0a]) m) = CONNECTED
  ∧ emitted (QSerialPort_readyRead env (b "OK" ++ [x0d; x0a]) m) = [connected "COM_A"]
  ∧ _state (QTimer_timeout env m) = DISCONNECTED.
Proof.
  split; [vm_compute; repeat split|].
  destruct (simple_identifier_outcome (env_open None) (b "OK" ++ [x0d; x0a])
              (run (env_open None) [Call_auto_connect None None [COM_A; COM_B]]
                   (__init__ simple_OK)))
    as (Hyes & _ & Hto); try (vm_compute; reflexivity).
  destruct Hyes as (H1 & _ & _ & H4 & _); [vm_compute; reflexivity|].
  destruct Hto as (H5 & _).
  split; [exact H1|]. split; [exact H4|exact H5].
Defined.

(** ** The status line, and who listens to the port *)

Lemma status_label_snoc l e :
  status_label (l ++ [e])
  = match e with
    | connected port_name => on_connected port_name
    | disconnected => on_disconnected
    | _ => status_label l
    end.
Proof. unfold status_label. rewrite foldl_app. by destruct e. Qed.

Lemma manager_slots_connect_manager t :
  manager_slots (connect_slot Manager_on_ready_read t) = S (manager_slots t).
Proof.
  unfold manager_slots, connect_slot. rewrite filter_app, length_app.
  rewrite filter_cons_True by done. cbn. lia.
Qed.

Lemma manager_slots_connect_identifier t :
  manager_slots (connect_slot Identifier_on_ready_read t) = manager_slots t.
Proof.
  unfold manager_slots, connect_slot. rewrite filter_app, length_app.
  rewrite filter_cons_False by done. cbn. lia.
Qed.

Lemma manager_slots_disconnect_manager t :
  manager_slots (disconnect_slot Manager_on_ready_read t) = 0.
Proof.
  unfold manager_slots. induction t as [|s t IH]; [done|].
  cbn [disconnect_slot]. destruct (decide (s = Manager_on_ready_read)) as [->|Hs].
  - exact IH.
  - by rewrite filter_cons_False.
Qed.

Lemma manager_slots_disconnect_identifier t :
  manager_slots (disconnect_slot Identifier_on_ready_read t) = manager_slots t.
Proof.
  unfold manager_slots. induction t as [|s t IH]; [done|].
  cbn [disconnect_slot]. destruct (decide (s = Identifier_on_ready_read)) as [->|Hs].
  - by rewrite filter_cons_False.
  - destruct s; [|done]. rewrite !filter_cons_True by done. cbn. by rewrite IH.
Qed.

Arguments manager_slots : simpl never.
Arguments status_label : simpl never.

Ltac ui_simpl :=
  unfold Inv_ui, status_ok, listeners_ok, on_serial, on_identifier, emit; cbn;
  rewrite ?status_label_snoc,
    ?ident_slots_connect_manager, ?ident_slots_connect_identifier,
    ?ident_slots_disconnect_manager, ?ident_slots_disconnect_identifier,
    ?manager_slots_connect_manager, ?manager_slots_connect_identifier,
    ?manager_slots_disconnect_manager, ?manager_slots_disconnect_identifier.

Section Interface.
Context (env : Env) (k : SerialManager → SerialManager).
Hypothesis Hk : ∀ m, Inv_ui m → Inv_ui (k m).

Lemma disconnect_k_ui m : Inv_ui m → Inv_ui (disconnect_k k m).
Proof.
  intros (Hs & Ha & Hb & Hc & Hd). unfold disconnect_k.
  unfold status_ok in Hs.
  destruct (isOpen (_serial m)); cbn; case_bool_decide as Hst; try apply Hk;
    ui_simpl; repeat split; try done;
    destruct (decide (_state m = CONNECTED)) as [Hcon|Hcon]; try done;
    by destruct (_state m).
Qed.

Lemma _on_identified_ui m :
  listeners_ok m → ident_slots (readyRead (_serial m)) = 0 →
  Inv_ui (_on_identified m)
  ∧ ident_slots (readyRead (_serial (_on_identified m))) = 0.
Proof.
  intros (Ha & Hb & Hc & Hd) H0. unfold _on_identified. ui_simpl.
  rewrite H0. repeat split; try done; lia.
Qed.

Lemma emit_identified_ui m :
  Inv_ui m → ident_slots (readyRead (_serial m)) = 0 →
  Inv_ui (emit_signal_k k identified m).
Proof.
  intros Hi H0. unfold emit_signal_k.
  set (m0 := on_identifier _ m).
  assert (Hm0 : Inv_ui m0 ∧ ident_slots (readyRead (_serial m0)) = 0) by done.
  clearbody m0. generalize (identified_conns (_identifier m0)). intros n.
  enough (Inv_ui (Nat.iter n (λ m, if bool_decide (0 < identified_conns (_identifier m))
                                   then _on_identified m else m) m0)
          ∧ ident_slots (readyRead (_serial (Nat.iter n (λ m,
              if bool_decide (0 < identified_conns (_identifier m))
              then _on_identified m else m) m0))) = 0) as [? _] by done.
  induction n as [|n [[IHs IHl] IH0]]; [done|].
  rewrite iter_S. case_bool_decide; [|done].
  by apply _on_identified_ui.
Qed.

Lemma emit_failed_ui m : Inv_ui m → Inv_ui (emit_signal_k k failed m).
Proof.
  intros Hi. unfold emit_signal_k.
  set (m0 := on_identifier _ m).
  assert (Hm0 : Inv_ui m0) by done.
  clearbody m0. generalize (failed_conns (_identifier m0)). intros n.
  induction n as [|n IH]; [done|].
  rewrite iter_S. case_bool_decide; [|done].
  by apply disconnect_k_ui.
Qed.

Lemma BlockingIdentifier_start_k_ui m :
  class (_identifier m) = BlockingIdentifier → Inv_ui m →
  Inv_ui (BlockingIdentifier_start_k env k m).
Proof.
  intros Hcl Hi. pose proof Hi as (_ & _ & _ & Hc & _).
  unfold BlockingIdentifier_start_k. cbn.
  destruct (wait_result env _); [case_match|];
    (apply emit_identified_ui || apply emit_failed_ui); try done; by apply Hc.
Qed.

Lemma SimpleIdentifier_start_ui m :
  class (_identifier m) = SimpleIdentifier → _state m ≠ CONNECTED →
  Inv_ui m → Inv_ui (SimpleIdentifier_start m).
Proof.
  intros Hcl Hst (Hs & Ha & Hb & Hc & Hd). unfold SimpleIdentifier_start.
  ui_simpl. repeat split; try done; try lia.
  intros Hbl. by rewrite Hcl in Hbl.
Qed.

Lemma start_k_ui m : _state m ≠ CONNECTED → Inv_ui m → Inv_ui (start_k env k m).
Proof.
  intros Hst Hi. unfold start_k. destruct (class _) eqn:Hcl.
  - by apply BlockingIdentifier_start_k_ui.
  - by apply SimpleIdentifier_start_ui.
Qed.

Lemma _identify_device_k_ui m :
  _state m = DISCONNECTED → Inv_ui m → Inv_ui (_identify_device_k env k m).
Proof.
  intros Hst (Hs & Ha & Hb & Hc & Hd). unfold _identify_device_k.
  apply start_k_ui; [done|]. unfold status_ok in Hs. rewrite Hst in Hs.
  ui_simpl. repeat split; try done; lia.
Qed.

Lemma while_available_ports_k_ui q m :
  _state m = DISCONNECTED → Inv_ui m → Inv_ui (while_available_ports_k env k q m).
Proof.
  revert m. induction q as [|p rest IH]; intros m Hst Hi; [done|].
  cbn [while_available_ports_k].
  destruct (negb (_port_matches_filters _ p)); [by apply IH|].
  assert (Hi' : ∀ s, readyRead s = readyRead (_serial m) →
                     Inv_ui (with_serial s (with_available_ports rest m))).
  { intros s Hrr. destruct Hi as (Hs & Hl). unfold status_ok in Hs.
    rewrite Hst in Hs. destruct Hl as (Ha & Hb & Hc & Hd).
    ui_simpl. rewrite Hst, Hrr. repeat split; done. }
  unfold open. cbn. destruct (open_result env _ p); cbn.
  - apply IH; [done|].
    specialize (Hi' (with_opens (S (opens (_serial m)))
                       (with_errorString s (setPort p (_serial m)))) eq_refl).
    destruct Hi' as (Hs' & Hl'). split; [|exact Hl'].
    unfold status_ok in *. cbn in *. rewrite status_label_snoc. done.
  - apply _identify_device_k_ui; [done|]. by apply Hi'.
Qed.

Lemma _try_next_port_k_ui m : Inv_ui m → Inv_ui (_try_next_port_k env k m).
Proof.
  intros Hi. unfold _try_next_port_k.
  destruct (isOpen (_serial m)); [done|]. cbn.
  case_bool_decide as Hst; [done|]. cbn.
  apply while_available_ports_k_ui; [|done]. by destruct (_state m).
Qed.

Lemma SimpleIdentifier_on_ready_read_k_ui m :
  Inv_ui m → Inv_ui (SimpleIdentifier_on_ready_read_k k m).
Proof.
  intros (Hs & Ha & Hb & Hc & Hd).
  unfold SimpleIdentifier_on_ready_read_k. cbn.
  case_match; (apply emit_identified_ui || apply emit_failed_ui);
    ui_simpl; repeat split; try done; lia.
Qed.

Lemma SimpleIdentifier_on_timeout_k_ui m :
  Inv_ui m → Inv_ui (SimpleIdentifier_on_timeout_k k m).
Proof.
  intros (Hs & Ha & Hb & Hc & Hd). unfold SimpleIdentifier_on_timeout_k.
  apply emit_failed_ui. ui_simpl. repeat split; try done; lia.
Qed.

End Interface.

Lemma _try_next_port_ui env m : Inv_ui m → Inv_ui (_try_next_port env m).
Proof.
  unfold _try_next_port. generalize (S (qlen m)). intros fuel. revert m.
  induction fuel as [|fuel IH]; intros m Hi; [done|].
  cbn [_try_next_port_fuel]. by apply _try_next_port_k_ui.
Qed.

Lemma disconnect_ui env m : Inv_ui m → Inv_ui (disconnect env m).
Proof. apply disconnect_k_ui. apply _try_next_port_ui. Qed.

Lemma _on_ready_read_ui m : Inv_ui m → Inv_ui (_on_ready_read m).
Proof.
  intros (Hs & Ha & Hb & Hc & Hd). unfold _on_ready_read. ui_simpl. done.
Qed.

Lemma step_ui env op m : Inv_ui m → Inv_ui (step env op m).
Proof.
  intros Hi. destruct op; cbn [step].
  - unfold auto_connect. apply _try_next_port_ui.
    destruct Hi as (Hs & Hl). by split.
  - by apply disconnect_ui.
  - unfold send. destruct (isOpen _); [|done].
    destruct Hi as (Hs & Hl). by split.
  - unfold QSerialPort_readyRead. destruct (isOpen _); [|done].
    assert (Hi' : Inv_ui (on_serial (receive data) m))
      by (destruct Hi as (Hs & Hl); by split).
    revert Hi'. generalize (on_serial (receive data) m). intros m0 Hi0.
    generalize (readyRead (_serial m0)). intros table. revert m0 Hi0.
    induction table as [|slot table IH]; intros m0 Hi0; [done|].
    cbn [foldl]. apply IH. unfold call_ready_slot.
    case_bool_decide; [|done]. destruct slot.
    + by apply _on_ready_read_ui.
    + apply SimpleIdentifier_on_ready_read_k_ui; [|done]. apply _try_next_port_ui.
  - unfold QTimer_timeout. destruct (timer_active _); [|done].
    apply SimpleIdentifier_on_timeout_k_ui; [apply _try_next_port_ui|].
    destruct Hi as (Hs & Hl). by split.
  - unfold QSerialPort_errorOccurred, _on_error. case_bool_decide; [|].
    + assert (Hi' : Inv_ui (on_serial (with_errorString msg) m))
        by (destruct Hi as (Hs & Hl); by split).
      destruct (disconnect_ui env _ Hi') as (Hs & Hl).
      split; [|exact Hl]. unfold status_ok in *. cbn.
      by rewrite status_label_snoc.
    + destruct Hi as (Hs & Hl). by split.
  - unfold PortMonitor_port_added. generalize (port_added_conns m). intros n.
    induction n as [|n IH]; [done|]. rewrite iter_S.
    unfold _on_port_added. cbn.
    assert (Hi' : Inv_ui (with_available_ports
                            (_available_ports (Nat.iter n (_on_port_added env port_info) m)
                             ++ [port_info])
                            (Nat.iter n (_on_port_added env port_info) m)))
      by (destruct IH as (Hs & Hl); by split).
    destruct (_ && _); [by apply _try_next_port_ui|done].
  - unfold PortMonitor_port_removed, _handle_port_removed.
    destruct (_ && _); [by apply disconnect_ui|].
    destruct Hi as (Hs & Hl). by split.
Qed.

Lemma run_ui env ops m : Inv_ui m → Inv_ui (run env ops m).
Proof.
  revert m. induction ops as [|op ops IH]; intros m Hi; [done|].
  cbn. apply IH, step_ui, Hi.
Qed.

Lemma init_ui c id_command expected_response timeout_ms :
  Inv_ui (__init__ (new_identifier c id_command expected_response timeout_ms)).
Proof.
  split; [done|]. unfold listeners_ok. cbn.
  assert (Hm : manager_slots [Manager_on_ready_read] = 1)
    by (unfold manager_slots; rewrite filter_cons_True by done; done).
  assert (Hi : ident_slots [Manager_on_ready_read] = 0)
    by (unfold ident_slots; rewrite filter_cons_False by done; done).
  rewrite Hm, Hi. repeat split; done || lia.
Qed.


(** ** Data received while connected *)

Lemma slots_length t : length t = manager_slots t + ident_slots t.
Proof.
  unfold manager_slots, ident_slots. induction t as [|s t IH]; [done|].
  destruct s.
  - rewrite filter_cons_True, filter_cons_False by done. cbn. lia.
  - rewrite filter_cons_False, filter_cons_True by done. cbn. lia.
Qed.

(** A table with one connection of the manager and none of the
    identifier. *)
Lemma manager_only t :
  manager_slots t = 1 → ident_slots t = 0 → t = [Manager_on_ready_read].
Proof.
  intros Hm Hi. pose proof (slots_length t) as Hl. rewrite Hm, Hi in Hl.
  destruct t as [|s [|s' t]]; cbn in Hl; try lia.
  destruct s; [done|].
  unfold ident_slots in Hi. by rewrite filter_cons_True in Hi.
Qed.

Ltac single_simpl :=
  unfold single_listener, on_serial, on_identifier, emit; cbn;
  rewrite ?manager_slots_connect_manager, ?manager_slots_connect_identifier,
    ?manager_slots_disconnect_manager, ?manager_slots_disconnect_identifier.

Section Listener.
Context (env : Env) (k : SerialManager → SerialManager).
Hypothesis Hk : ∀ m, single_listener m → single_listener (k m).

Lemma disconnect_k_single m : single_listener m → single_listener (disconnect_k k m).
Proof.
  intros Hs. unfold disconnect_k.
  destruct (isOpen (_serial m)); cbn; case_bool_decide; try apply Hk; exact Hs.
Qed.

Lemma _on_identified_single m :
  single_listener m → 0 < identified_conns (_identifier m) →
  single_listener (_on_identified m).
Proof.
  intros [Ha Hb] Hpos. unfold _on_identified. single_simpl.
  rewrite (Hb Hpos). split; lia.
Qed.

Lemma emit_signal_k_single sig m :
  single_listener m → single_listener (emit_signal_k k sig m).
Proof.
  intros Hs. unfold emit_signal_k.
  set (m0 := on_identifier _ m).
  assert (Hm0 : single_listener m0) by exact Hs.
  clearbody m0. destruct sig.
  - generalize (identified_conns (_identifier m0)). intros n.
    induction n as [|n IH]; [done|]. rewrite iter_S.
    case_bool_decide; [|done]. by apply _on_identified_single.
  - generalize (failed_conns (_identifier m0)). intros n.
    induction n as [|n IH]; [done|]. rewrite iter_S.
    case_bool_decide; [|done]. by apply disconnect_k_single.
Qed.

Lemma start_k_single m : single_listener m → single_listener (start_k env k m).
Proof.
  intros Hs. unfold start_k, BlockingIdentifier_start_k, SimpleIdentifier_start.
  destruct (class _); cbn.
  - destruct (wait_result env _); [case_match|]; by apply emit_signal_k_single.
  - single_simpl. exact Hs.
Qed.

Lemma _identify_device_k_single m : single_listener (_identify_device_k env k m).
Proof.
  unfold _identify_device_k. apply start_k_single. single_simpl. split; [lia|done].
Qed.

Lemma while_available_ports_k_single q m :
  single_listener m → single_listener (while_available_ports_k env k q m).
Proof.
  revert m. induction q as [|p rest IH]; intros m Hs; [done|].
  cbn [while_available_ports_k].
  destruct (negb (_port_matches_filters _ p)); [by apply IH|].
  unfold open. cbn. destruct (open_result env _ p); cbn.
  - by apply IH.
  - apply _identify_device_k_single.
Qed.

Lemma _try_next_port_k_single m :
  single_listener m → single_listener (_try_next_port_k env k m).
Proof.
  intros Hs. unfold _try_next_port_k. destruct (_ || _); [done|].
  by apply while_available_ports_k_single.
Qed.

Lemma SimpleIdentifier_on_ready_read_k_single m :
  single_listener m → single_listener (SimpleIdentifier_on_ready_read_k k m).
Proof.
  intros Hs. unfold SimpleIdentifier_on_ready_read_k. cbn.
  case_match; apply emit_signal_k_single; single_simpl; exact Hs.
Qed.

Lemma SimpleIdentifier_on_timeout_k_single m :
  single_listener m → single_listener (SimpleIdentifier_on_timeout_k k m).
Proof.
  intros Hs. unfold SimpleIdentifier_on_timeout_k.
  apply emit_signal_k_single. single_simpl. exact Hs.
Qed.

End Listener.

Lemma _try_next_port_single env m :
  single_listener m → single_listener (_try_next_port env m).
Proof.
  unfold _try_next_port. generalize (S (qlen m)). intros fuel. revert m.
  induction fuel as [|fuel IH]; intros m Hs; [done|].
  cbn [_try_next_port_fuel]. by apply _try_next_port_k_single.
Qed.

Lemma disconnect_single env m : single_listener m → single_listener (disconnect env m).
Proof. apply disconnect_k_single. apply _try_next_port_single. Qed.

Lemma step_single env op m : single_listener m → single_listener (step env op m).
Proof.
  intros Hs. destruct op; cbn [step].
  - unfold auto_connect. by apply _try_next_port_single.
  - by apply disconnect_single.
  - unfold send. by destruct (isOpen _).
  - unfold QSerialPort_readyRead. destruct (isOpen _); [|done].
    assert (Hs' : single_listener (on_serial (receive data) m)) by exact Hs.
    revert Hs'. generalize (on_serial (receive data) m). intros m0 Hs0.
    generalize (readyRead (_serial m0)). intros table. revert m0 Hs0.
    induction table as [|slot table IH]; intros m0 Hs0; [done|].
    cbn [foldl]. apply IH. unfold call_ready_slot.
    case_bool_decide; [|done]. destruct slot.
    + exact Hs0.
    + apply SimpleIdentifier_on_ready_read_k_single; [|done].
      apply _try_next_port_single.
  - unfold QTimer_timeout. destruct (timer_active _); [|done].
    apply SimpleIdentifier_on_timeout_k_single; [apply _try_next_port_single|].
    exact Hs.
  - unfold QSerialPort_errorOccurred, _on_error. case_bool_decide; [|exact Hs].
    assert (Hs' : single_listener (on_serial (with_errorString msg) m)) by exact Hs.
    exact (disconnect_single env _ Hs').
  - unfold PortMonitor_port_added. generalize (port_added_conns m). intros n.
    induction n as [|n IH]; [done|]. rewrite iter_S.
    unfold _on_port_added. cbn.
    destruct (_ && _); [apply _try_next_port_single|]; exact IH.
  - unfold PortMonitor_port_removed, _handle_port_removed.
    destruct (_ && _); [by apply disconnect_single|exact Hs].
Qed.

Lemma run_single env ops m : single_listener m → single_listener (run env ops m).
Proof.
  revert m. induction ops as [|op ops IH]; intros m Hs; [done|].
  cbn. apply IH, step_single, Hs.
Qed.

Lemma init_single c id_command expected_response timeout_ms :
  single_listener (__init__ (new_identifier c id_command expected_response timeout_ms)).
Proof.
  unfold single_listener. cbn.
  assert (Hm : manager_slots [Manager_on_ready_read] = 1)
    by (unfold manager_slots; rewrite filter_cons_True by done; done).
  rewrite Hm. split; lia.
Qed.



(** ** The filters *)

Lemma within_fields vid pid ports m m' :
  _vid m' = _vid m → _pid m' = _pid m →
  _available_ports m' ⊆ _available_ports m →
  (isOpen (_serial m') = true →
   isOpen (_serial m) = true ∧ serial_port (_serial m') = serial_port (_serial m)) →
  within vid pid ports m → within vid pid ports m'.
Proof.
  intros Hv Hp Hq Hs (H1 & H2 & H3 & H4).
  split; [by rewrite Hv|]. split; [by rewrite Hp|].
  split; [by etrans|].
  intros Ho. destruct (Hs Ho) as [Ho' ->]. by apply H4.
Qed.

Section Filters.
Context (env : Env) (vid pid : option Z) (ports : list QSerialPortInfo).
Context (k : SerialManager → SerialManager).
Hypothesis Hk : ∀ m, within vid pid ports m → within vid pid ports (k m).

Lemma disconnect_k_within m :
  within vid pid ports m → within vid pid ports (disconnect_k k m).
Proof.
  intros Hw. unfold disconnect_k.
  destruct (isOpen (_serial m)) eqn:Ho; cbn; case_bool_decide; try apply Hk;
    (eapply within_fields; [..|exact Hw]); cbn; try done; by rewrite ?Ho.
Qed.

Lemma _on_identified_within m :
  within vid pid ports m → within vid pid ports (_on_identified m).
Proof.
  intros Hw. unfold _on_identified.
  (eapply within_fields; [..|exact Hw]); cbn; try done.
  intros x Hx. by apply elem_of_nil in Hx.
Qed.

Lemma emit_signal_k_within sig m :
  within vid pid ports m → within vid pid ports (emit_signal_k k sig m).
Proof.
  intros Hw. unfold emit_signal_k.
  set (m0 := on_identifier _ m).
  assert (Hm0 : within vid pid ports m0) by exact Hw.
  clearbody m0. destruct sig.
  - generalize (identified_conns (_identifier m0)). intros n.
    induction n as [|n IH]; [done|]. rewrite iter_S.
    case_bool_decide; [|done]. by apply _on_identified_within.
  - generalize (failed_conns (_identifier m0)). intros n.
    induction n as [|n IH]; [done|]. rewrite iter_S.
    case_bool_decide; [|done]. by apply disconnect_k_within.
Qed.

Lemma start_k_within m :
  within vid pid ports m → within vid pid ports (start_k env k m).
Proof.
  intros Hw. unfold start_k, BlockingIdentifier_start_k, SimpleIdentifier_start.
  destruct (class _); cbn.
  - destruct (wait_result env _); [case_match|]; by apply emit_signal_k_within.
  - exact Hw.
Qed.

Lemma _identify_device_k_within m :
  within vid pid ports m → within vid pid ports (_identify_device_k env k m).
Proof. intros Hw. unfold _identify_device_k. by apply start_k_within. Qed.

Lemma while_available_ports_k_within q m :
  _vid m = vid → _pid m = pid → _available_ports m = q → q ⊆ ports →
  isOpen (_serial m) = false →
  within vid pid ports (while_available_ports_k env k q m).
Proof.
  revert m. induction q as [|p rest IH]; intros m Hv Hp Hq Hsub Ho.
  { cbn. split; [done|]. split; [done|]. split; [by rewrite Hq|].
    intros H. by rewrite Ho in H. }
  assert (Hrest : rest ⊆ ports) by (intros x Hx; apply Hsub; by right).
  cbn [while_available_ports_k].
  destruct (_port_matches_filters _ p) eqn:Hm; cbn [negb]; [|by apply IH].
  unfold _port_matches_filters in Hm. cbn in Hm. rewrite Hv, Hp in Hm.
  unfold open. cbn. destruct (open_result env _ p); cbn.
  - by apply IH.
  - apply _identify_device_k_within. repeat split; try done.
    + cbn. apply Hsub. left.
    + cbn. by destruct (filter_ok vid _).
    + cbn. destruct (filter_ok vid _); [|done]. by destruct (filter_ok pid _).
Qed.

Lemma _try_next_port_k_within m :
  within vid pid ports m → within vid pid ports (_try_next_port_k env k m).
Proof.
  intros Hw. pose proof Hw as (Hv & Hp & Hq & _). unfold _try_next_port_k.
  destruct (isOpen (_serial m)) eqn:Ho; [done|]. cbn.
  case_bool_decide; [done|]. cbn.
  by apply while_available_ports_k_within.
Qed.

End Filters.

Lemma _try_next_port_within env vid pid ports m :
  within vid pid ports m → within vid pid ports (_try_next_port env m).
Proof.
  unfold _try_next_port. generalize (S (qlen m)). intros fuel. revert m.
  induction fuel as [|fuel IH]; intros m Hw; [done|].
  cbn [_try_next_port_fuel]. by apply _try_next_port_k_within.
Qed.



(** ** Going on to the next candidate *)

(** The loop over the candidates, started on a DISCONNECTED manager with
    the port closed and a non-blocking identifier, the first candidate
    passing the filters and opening: the port is opened on it, the command
    is written, the timer is armed, and the manager is IDENTIFYING with the
    other candidates still queued; no event is emitted. *)
Lemma _try_next_port_starts_identification env p rest m :
  isOpen (_serial m) = false → _state m = DISCONNECTED →
  class (_identifier m) = SimpleIdentifier →
  _available_ports m = p :: rest →
  _port_matches_filters m p = true →
  open_result env (opens (_serial m)) p = None →
  let m' := _try_next_port env m in
  _state m' = IDENTIFYING ∧ isOpen (_serial m') = true
  ∧ serial_port (_serial m') = p
  ∧ _available_ports m' = rest
  ∧ emitted m' = emitted m
  ∧ tx (_serial m') = tx (_serial m) ++ [_id_command (_identifier m)]
  ∧ timer_active (_identifier m') = true
  ∧ Identifier_on_ready_read ∈ readyRead (_serial m').
Proof.
  intros Ho Hst Hcl Hq Hm Hopen m'. subst m'.
  rewrite _try_next_port_unfold. unfold _try_next_port_k.
  rewrite Ho, bool_decide_eq_false_2 by (intros H; by apply H).
  cbn [orb]. rewrite Hq. cbn [while_available_ports_k].
  rewrite (_port_matches_filters_eq m) by done. rewrite Hm. cbn [negb].
  unfold open. cbn. rewrite Hopen. cbn.
  unfold _identify_device_k, start_k. cbn. rewrite Hcl.
  unfold SimpleIdentifier_start. cbn. repeat split.
  unfold connect_slot. apply elem_of_app. right. left.
Qed.

(** X14. A port added signal that reaches a DISCONNECTED manager with an empty
    queue is acted upon at once: with a non-blocking identifier and a port
    that passes the filters and opens, the manager is IDENTIFYING on that
    port when the slot returns, the command written and the timer armed. *)
Theorem port_added_to_an_idle_manager_is_tried_at_once
  (env : Env) (p : QSerialPortInfo) (m : SerialManager) :
  isOpen (_serial m) = false → _state m = DISCONNECTED →
  class (_identifier m) = SimpleIdentifier →
  _available_ports m = [] →
  _port_matches_filters m p = true →
  open_result env (opens (_serial m)) p = None →
  let m' := _on_port_added env p m in
  _state m' = IDENTIFYING ∧ isOpen (_serial m') = true
  ∧ serial_port (_serial m') = p
  ∧ _available_ports m' = []
  ∧ emitted m' = emitted m
  ∧ tx (_serial m') = tx (_serial m) ++ [_id_command (_identifier m)]
  ∧ timer_active (_identifier m') = true.
Proof.
  intros Ho Hst Hcl Hq Hm Hopen m'. subst m'. unfold _on_port_added. cbn.
  rewrite Hq, Hst. cbn.
  rewrite (bool_decide_eq_true_2 (DISCONNECTED = DISCONNECTED)) by done. cbn.
  destruct (_try_next_port_starts_identification env p []
              (with_available_ports [p] m)) as (H1 & H2 & H3 & H4 & H5 & H6 & H7 & _);
    try done.
Qed.

Lemma port_added_to_an_idle_manager_is_tried_at_once_witness :
  let env := env_open None in
  let m := run env [Call_auto_connect None None []] (__init__ simple_OK) in
  (isOpen (_serial m) = false ∧ _state m = DISCONNECTED
   ∧ class (_identifier m) = SimpleIdentifier ∧ _available_ports m = []
   ∧ _port_matches_filters m COM_A = true
   ∧ open_result env (opens (_serial m)) COM_A = None)
  ∧ (let m' := _on_port_added env COM_A m in
     _state m' = IDENTIFYING ∧ isOpen (_serial m') = true
     ∧ serial_port (_serial m') = COM_A
     ∧ _available_ports m' = []
     ∧ emitted m' = emitted m
     ∧ tx (_serial m') = tx (_serial m) ++ [_id_command (_identifier m)]
     ∧ timer_active (_identifier m') = true).
Proof.
  split; [vm_compute; repeat split|].
  apply (port_added_to_an_idle_manager_is_tried_at_once (env_open None) COM_A
           (run (env_open None) [Call_auto_connect None None []] (__init__ simple_OK)));
    vm_compute; reflexivity.
Defined.

(** X15. [disconnect()] reconnects: called on a CONNECTED manager that has
    candidates queued, with a non-blocking identifier and the first candidate
    passing the filters and opening, it emits disconnected and leaves the
    manager IDENTIFYING on that candidate, the others still queued. *)
Theorem disconnect_goes_on_to_the_next_candidate
  (env : Env) (p : QSerialPortInfo) (rest : list QSerialPortInfo) (m : SerialManager) :
  isOpen (_serial m) = true → _state m = CONNECTED →
  class (_identifier m) = SimpleIdentifier →
  _available_ports m = p :: rest →
  _port_matches_filters m p = true →
  open_result env (opens (_serial m)) p = None →
  let m' := disconnect env m in
  _state m' = IDENTIFYING ∧ isOpen (_serial m') = true
  ∧ serial_port (_serial m') = p
  ∧ _available_ports m' = rest
  ∧ emitted m' = emitted m ++ [disconnected]
  ∧ tx (_serial m') = tx (_serial m) ++ [_id_command (_identifier m)]
  ∧ timer_active (_identifier m') = true.
Proof.
  intros Ho Hst Hcl Hq Hm Hopen m'. subst m'. rewrite disconnect_eq, Ho. cbn.
  rewrite Hst. rewrite (bool_decide_eq_true_2 (CONNECTED ≠ IDENTIFYING)) by done.
  destruct (_try_next_port_starts_identification env p rest
              (emit disconnected (with_state DISCONNECTED (on_serial close m))))
    as (H1 & H2 & H3 & H4 & H5 & H6 & H7 & _); try done.
Qed.

Lemma disconnect_goes_on_to_the_next_candidate_witness :
  let env := {| open_result := λ _ _, None;
                wait_result := λ _, None |} in
  let m := run env [Call_auto_connect None None [COM_A]; Sig_readyRead (b "OK");
                    Sig_port_added COM_B] (__init__ simple_OK) in
  (isOpen (_serial m) = true ∧ _state m = CONNECTED
   ∧ class (_identifier m) = SimpleIdentifier ∧ _available_ports m = [COM_B]
   ∧ _port_matches_filters m COM_B = true
   ∧ open_result env (opens (_serial m)) COM_B = None)
  ∧ (let m' := disconnect env m in
     _state m' = IDENTIFYING ∧ isOpen (_serial m') = true
     ∧ serial_port (_serial m') = COM_B
     ∧ _available_ports m' = []
     ∧ emitted m' = emitted m ++ [disconnected]
     ∧ tx (_serial m') = tx (_serial m) ++ [_id_command (_identifier m)]
     ∧ timer_active (_identifier m') = true).
Proof.
  split; [vm_compute; repeat split|].
  apply (disconnect_goes_on_to_the_next_candidate
           {| open_result := λ _ _, None; wait_result := λ _, None |} COM_B []
           (run {| open_result := λ _ _, None; wait_result := λ _, None |}
                [Call_auto_connect None None [COM_A]; Sig_readyRead (b "OK");
                 Sig_port_added COM_B] (__init__ simple_OK)));
    vm_compute; reflexivity.
Defined.


